(** * ConnectFour: a shallow embedding of [ConnectFour.cpp]

    The development follows the source file top down: the exception
    classes, the [Board] class (grid, last move, queries, [MakeMove],
    [CheckWin]), then the body of [main] (human move, draw test, the
    automated player's win / block / random choice, and the game-over
    handler).

    Conventions.
    - [unsigned int] rows and columns are [nat]: the class only compares and
      indexes with them, it never computes on them.
    - [std::vector<std::vector<SpaceState>>] is a [list (list _)] read with
      stdpp's lookup and written with [alter]/insert.
    - A method that can throw returns [Res A = exn + A]; a method that also
      mutates its object lives in the state-and-exception monad [M]. *)

From Stdlib Require Import Ascii NArith.
From stdpp Require Import base option list strings gmap.

(** ** Exceptions *)

(** [GameOverException] derives from [std::exception]; every other throw in
    the file is a [std::exception] built from a message. *)
Inductive exn : Type :=
| GameOverException
| std_exception (what : string).

#[global] Instance exn_eq_dec : EqDecision exn.
Proof. solve_decision. Defined.

Definition Res (A : Type) : Type := (exn + A)%type.

(** State-and-exception monad: the state is the object (or the program
    state) a statement sequence works on.  A throw keeps the state reached
    so far, as stack unwinding does. *)
Definition M (S A : Type) : Type := S → Res A * S.

Definition ret {S A} (a : A) : M S A := λ s, (inr a, s).

Definition throw {S A} (e : exn) : M S A := λ s, (inl e, s).

Definition bind {S A B} (m : M S A) (k : A → M S B) : M S B :=
  λ s, match m s with
       | (inl e, s') => (inl e, s')
       | (inr a, s') => k a s'
       end.

(** Call of a [const] method: the state is read, never written. *)
Definition call {S A} (f : S → Res A) : M S A := λ s, (f s, s).

(** Reading the state in an expression that cannot throw. *)
Definition read {S A} (f : S → A) : M S A := λ s, (inr (f s), s).

Declare Scope cpp_scope.
Delimit Scope cpp_scope with cpp.
Notation "'let!' x := m 'in' k" := (bind m (λ x, k))
  (at level 10, x name, m at level 100, k at level 200) : cpp_scope.
Notation "m ;;; k" := (bind m (λ _, k))
  (at level 100, k at level 200, right associativity) : cpp_scope.
Open Scope cpp_scope.

(** ** class Board *)

Module SpaceState.
Inductive t : Type := Empty | Player1 | Player2.

#[global] Instance eq_dec : EqDecision t.
Proof. solve_decision. Defined.
End SpaceState.

Module MoveType.
Inductive t : Type := Player1 | Player2.

#[global] Instance eq_dec : EqDecision t.
Proof. solve_decision. Defined.
End MoveType.

Module Board.

Record LastMove_t : Type := mkLastMove
  { x : nat;
    y : nat;
    isInitialized : bool }.

Record t : Type := mk
  { LastMove : LastMove_t;
    board : list (list SpaceState.t) }.

Definition Width : nat := 7.
Definition Height : nat := 6.

(** [Board()] *)
Definition new : t :=
  {| LastMove := {| x := 0; y := 0; isInitialized := false |};
     board := replicate Height (replicate Width SpaceState.Empty) |}.

(** [operator=]: [this->board = original.board], nothing else. *)
Definition assign (this original : t) : t :=
  {| LastMove := LastMove this; board := board original |}.

(** [board[Row][Column]] on the vector of vectors.  The class keeps the grid
    at [Height] rows of [Width] cells ([wf] below), and every index the code
    uses is below these bounds; outside them (undefined in C++) the model
    reads [Empty]. *)
Definition cell (g : list (list SpaceState.t)) (Row Column : nat) : SpaceState.t :=
  default SpaceState.Empty (g !! Row ≫= λ cells, cells !! Column).

Definition wf (b : t) : Prop :=
  length (board b) = Height ∧ Forall (λ cells, length cells = Width) (board b).

Definition GetSpace (Row Column : nat) (b : t) : Res SpaceState.t :=
  if decide (Height ≤ Row) then inl (std_exception "Row out of range"%string)
  else if decide (Width ≤ Column) then inl (std_exception "Column out of range"%string)
  else inr (cell (board b) Row Column).

(** The loop [for (int i = Height - 1; i >= 0; --i)] of [GetColumnHeight],
    with [n] rows still to look at: row [n - 1] is looked at next. *)
Fixpoint GetColumnHeight_loop (g : list (list SpaceState.t)) (Column n : nat) : nat :=
  match n with
  | 0 => Height
  | S i =>
      if decide (cell g i Column = SpaceState.Empty) then i
      else GetColumnHeight_loop g Column i
  end.

Definition GetColumnHeight (Column : nat) (b : t) : Res nat :=
  if decide (Width ≤ Column) then inl (std_exception "Column out of range"%string)
  else inr (GetColumnHeight_loop (board b) Column Height).

Definition CanMakeMove (Column : nat) (b : t) : Res bool :=
  match GetColumnHeight Column b with
  | inl e => inl e
  | inr h => inr (bool_decide (h < Height))
  end.

Definition ConvertMoveToSpaceState (Move : MoveType.t) : SpaceState.t :=
  match Move with
  | MoveType.Player1 => SpaceState.Player1
  | MoveType.Player2 => SpaceState.Player2
  end.

Definition SetSpace (Row Column : nat) (NewState : SpaceState.t) : M t unit :=
  λ b,
    if decide (Height ≤ Row) then throw (std_exception "Row out of range"%string) b
    else if decide (Width ≤ Column) then throw (std_exception "Column out of range"%string) b
    else (inr tt,
          {| LastMove := {| x := Column; y := Row; isInitialized := true |};
             board := alter (λ cells, <[Column := NewState]> cells) Row (board b) |}).

Definition MakeMove (Move : MoveType.t) (Column : nat) : M t unit :=
  let! ok := call (CanMakeMove Column) in
  if negb ok then throw (std_exception "Cannot make move"%string)
  else
    let! CurrentHeight := call (GetColumnHeight Column) in
    SetSpace CurrentHeight Column (ConvertMoveToSpaceState Move).

Definition IsLastMove (Row Column : nat) (b : t) : bool :=
  isInitialized (LastMove b)
  && bool_decide (x (LastMove b) = Column)
  && bool_decide (y (LastMove b) = Row).

(** [for (v = lo; v < hi; v++)] *)
Definition range (lo hi : nat) : list nat := seq lo (hi - lo).

Definition is_player (g : list (list SpaceState.t)) (player : SpaceState.t)
    (Row Column : nat) : bool :=
  bool_decide (cell g Row Column = player).

Definition CheckWin_horizontal (player : SpaceState.t) (g : list (list SpaceState.t)) : bool :=
  existsb (λ r,
    existsb (λ c,
      is_player g player r c && is_player g player r (c + 1)
      && is_player g player r (c + 2) && is_player g player r (c + 3))
      (range 0 (S (Width - 4))))
    (range 0 Height).

Definition CheckWin_vertical (player : SpaceState.t) (g : list (list SpaceState.t)) : bool :=
  existsb (λ c,
    existsb (λ r,
      is_player g player r c && is_player g player (r + 1) c
      && is_player g player (r + 2) c && is_player g player (r + 3) c)
      (range 0 (S (Height - 4))))
    (range 0 Width).

(** "top-left to bottom-right" *)
Definition CheckWin_diagonal1 (player : SpaceState.t) (g : list (list SpaceState.t)) : bool :=
  existsb (λ r,
    existsb (λ c,
      is_player g player r c && is_player g player (r + 1) (c + 1)
      && is_player g player (r + 2) (c + 2) && is_player g player (r + 3) (c + 3))
      (range 0 (S (Width - 4))))
    (range 0 (S (Height - 4))).

(** "bottom-left to top-right" *)
Definition CheckWin_diagonal2 (player : SpaceState.t) (g : list (list SpaceState.t)) : bool :=
  existsb (λ r,
    existsb (λ c,
      is_player g player r c && is_player g player (r - 1) (c + 1)
      && is_player g player (r - 2) (c + 2) && is_player g player (r - 3) (c + 3))
      (range 0 (S (Width - 4))))
    (range 3 Height).

(** The four loop nests in source order; [||] is the early [return true]. *)
Definition CheckWin (player : SpaceState.t) (b : t) : bool :=
  CheckWin_horizontal player (board b)
  || CheckWin_vertical player (board b)
  || CheckWin_diagonal1 player (board b)
  || CheckWin_diagonal2 player (board b).

End Board.

(** ** Board objects in memory

    [main] holds several [Board] objects at a time (the game board [b], the
    trial board [boardWin], the fresh [newBoard]).  An object has an
    address; its member [board], a [std::vector] of row vectors, holds the
    addresses of its rows, and a row's cells are stored at the row's
    address.  [SetSpace] writes a cell in place, so two objects that held a
    common row would see each other's moves. *)

Module Memory.

Record object : Type := mkObject
  { obj_LastMove : Board.LastMove_t;
    obj_rows : list nat }.

Record mem : Type := mkMem
  { objects : gmap nat object;
    vectors : gmap nat (list SpaceState.t);
    next : nat }.          (* the next address the allocator hands out *)

Definition empty : mem := {| objects := ∅; vectors := ∅; next := 0 |}.

(** The rows found at the addresses [rows]. *)
Fixpoint load_rows (vecs : gmap nat (list SpaceState.t)) (rows : list nat) :
    option (list (list SpaceState.t)) :=
  match rows with
  | [] => Some []
  | p :: rows' =>
      match vecs !! p, load_rows vecs rows' with
      | Some cells, Some g => Some (cells :: g)
      | _, _ => None
      end
  end.

(** The value of the object at address [a]. *)
Definition load (m : mem) (a : nat) : option Board.t :=
  o ← objects m !! a;
  g ← load_rows (vectors m) (obj_rows o);
  Some {| Board.LastMove := obj_LastMove o; Board.board := g |}.

(** New row vectors holding [values]: their addresses, the vectors and the
    allocator afterwards. *)
Fixpoint alloc_rows (values : list (list SpaceState.t))
    (vecs : gmap nat (list SpaceState.t)) (nx : nat) :
    list nat * gmap nat (list SpaceState.t) * nat :=
  match values with
  | [] => ([], vecs, nx)
  | cells :: values' =>
      let '(rows, vecs', nx') := alloc_rows values' (<[nx := cells]> vecs) (S nx) in
      (nx :: rows, vecs', nx')
  end.

(** [Board()] at address [a]: [LastMove{0, 0, false}] and a new vector of
    [Height] rows of [Width] Empty cells. *)
Definition construct (a : nat) (m : mem) : mem :=
  let '(rows, vecs, nx) := alloc_rows (Board.board Board.new) (vectors m) (next m) in
  {| objects := <[a := {| obj_LastMove := Board.LastMove Board.new;
                          obj_rows := rows |}]> (objects m);
     vectors := vecs;
     next := nx |}.

(** [*dst = *src] through [Board::operator=], that is
    [dst->board = src->board]: the copy assignment of [std::vector] gives
    the destination a copy of every row of the source, in vectors of its
    own (here: new ones); [LastMove] is not assigned. *)
Definition assign_at (dst src : nat) (m : mem) : mem :=
  match objects m !! dst, load m src with
  | Some d, Some original =>
      let '(rows, vecs, nx) :=
        alloc_rows (Board.board original) (vectors m) (next m) in
      {| objects := <[dst := {| obj_LastMove := obj_LastMove d;
                                obj_rows := rows |}]> (objects m);
         vectors := vecs;
         next := nx |}
  | _, _ => m
  end.

(** [a->SetSpace(Row, Column, NewState)]: [board[Row][Column] = NewState]
    writes the cell where the row is stored. *)
Definition SetSpace_at (a Row Column : nat) (NewState : SpaceState.t) (m : mem) :
    Res unit * mem :=
  if decide (Board.Height ≤ Row) then (inl (std_exception "Row out of range"), m)
  else if decide (Board.Width ≤ Column)
  then (inl (std_exception "Column out of range"), m)
  else
    match objects m !! a with
    | Some o =>
        (inr tt,
         {| objects :=
              <[a := {| obj_LastMove := {| Board.x := Column; Board.y := Row;
                                           Board.isInitialized := true |};
                        obj_rows := obj_rows o |}]> (objects m);
            vectors :=
              match obj_rows o !! Row with
              | Some p => alter (λ cells, <[Column := NewState]> cells) p (vectors m)
              | None => vectors m
              end;
            next := next m |})
    | None => (inr tt, m)
    end.

(** [a->MakeMove(Move, Column)]; the two queries read the object, the
    write goes through [SetSpace].  (No object at [a]: there is nothing to
    call.) *)
Definition MakeMove_at (a : nat) (Move : MoveType.t) (Column : nat) (m : mem) :
    Res unit * mem :=
  match load m a with
  | Some bd =>
      match Board.CanMakeMove Column bd with
      | inl e => (inl e, m)
      | inr false => (inl (std_exception "Cannot make move"), m)
      | inr true =>
          match Board.GetColumnHeight Column bd with
          | inl e => (inl e, m)
          | inr CurrentHeight =>
              SetSpace_at a CurrentHeight Column
                (Board.ConvertMoveToSpaceState Move) m
          end
      end
  | None => (inr tt, m)
  end.

(** A sequence of [MakeMove] calls on one object, each call's exception
    caught by the caller. *)
Fixpoint MakeMoves_at (a : nat) (moves : list (MoveType.t * nat)) (m : mem) : mem :=
  match moves with
  | [] => m
  | (Move, Column) :: rest => MakeMoves_at a rest (MakeMove_at a Move Column m).2
  end.

(** [a->GetColumnHeight(Column)] and [a->GetSpace(Row, Column)] *)
Definition GetColumnHeight_at (a Column : nat) (m : mem) : option (Res nat) :=
  Board.GetColumnHeight Column <$> load m a.

Definition GetSpace_at (a Row Column : nat) (m : mem) : option (Res SpaceState.t) :=
  Board.GetSpace Row Column <$> load m a.

(** What the constructor and the operations keep: the rows of an object
    are distinct, they were handed out by the allocator, and no row
    belongs to two objects. *)
Definition ok (m : mem) : Prop :=
  (∀ a o, objects m !! a = Some o →
          NoDup (obj_rows o) ∧ ∀ p, p ∈ obj_rows o → p < next m)
  ∧ (∀ a a' o o' p, a ≠ a' →
       objects m !! a = Some o → objects m !! a' = Some o' →
       p ∈ obj_rows o → p ∉ obj_rows o').

End Memory.

(** ** main *)

(** What one cell of [PrintBoard]'s output shows: the token and whether it is
    highlighted as the last move. *)
Definition Frame : Type := list (list (SpaceState.t * bool)).

Inductive Event : Type :=
| EvPrintBoard (frame : Frame)
| EvPrompt                      (* "Enter a column between 1 and 7.  " *)
| EvInvalidInput                (* "Invalid input. Please enter ..." *)
| EvText (s : string)
| EvBeep.                       (* printf("\a\a\a\a") *)

#[global] Instance Event_eq_dec : EqDecision Event.
Proof. solve_decision. Defined.

(** *** std::cin

    The standard input is the list of characters not read yet.  The
    stream's state bits need no place of their own: [eofbit] is set by a
    read that runs into the end of the input, after which nothing is left,
    and the one place where [failbit] alone is set is followed by
    [cin.clear()]; [badbit] is never set.  A read from the empty input
    finds the end of the input again. *)

(** [isspace] in the "C" locale: space, and [\t \n \v \f \r] *)
Definition isspace (c : ascii) : bool :=
  let n := nat_of_ascii c in (n =? 32) || ((9 <=? n) && (n <=? 13)).

Definition isdigit (c : ascii) : bool :=
  let n := nat_of_ascii c in (48 <=? n) && (n <=? 57).

(** The whitespace skipped before a formatted read. *)
Fixpoint skipws (s : list ascii) : list ascii :=
  match s with
  | [] => []
  | c :: s' => if isspace c then skipws s' else s
  end.

(** The digits a read of a number takes, and what it leaves. *)
Fixpoint read_digits (s : list ascii) : list ascii * list ascii :=
  match s with
  | [] => ([], [])
  | c :: s' =>
      if isdigit c then let '(ds, rest) := read_digits s' in (c :: ds, rest)
      else ([], s)
  end.

Definition decimal (ds : list ascii) : N :=
  foldl (λ acc c, 10 * acc + (N_of_ascii c - 48))%N 0%N ds.

(** The largest [unsigned int], 32 bits wide. *)
Definition UINT_MAX : N := 4294967295.

(** What [std::cin >> RequestedColumn] leaves behind: the two state bits
    the caller tests, and the number stored. *)
Record Extracted : Type := mkExtracted
  { eofbit : bool;
    failbit : bool;
    value : N }.

(** [std::cin >> RequestedColumn] for an [unsigned int]: whitespace is
    skipped; at the end of the input the read fails with both bits set.
    Otherwise an optional sign and the decimal digits after it are taken,
    up to the first other character, which stays in the input; [eofbit] is
    set when the digits run to the end of the input.  No digit, or a
    number above [UINT_MAX], sets [failbit]; a number after [-] is negated
    modulo 2^32. *)
Definition extract_unsigned (s : list ascii) : Extracted * list ascii :=
  match skipws s with
  | [] => ({| eofbit := true; failbit := true; value := 0 |}, [])
  | c :: s' =>
      let negative := bool_decide (c = "-"%char) in
      let signed := negative || bool_decide (c = "+"%char) in
      let '(ds, rest) := read_digits (if signed then s' else c :: s') in
      let eof := bool_decide (rest = []) in
      match ds with
      | [] => ({| eofbit := eof; failbit := true; value := 0 |}, rest)
      | _ :: _ =>
          let v := decimal ds in
          if (UINT_MAX <? v)%N
          then ({| eofbit := eof; failbit := true; value := UINT_MAX |}, rest)
          else ({| eofbit := eof; failbit := false;
                   value := if negative then ((UINT_MAX + 1 - v) mod (UINT_MAX + 1))%N
                            else v |}, rest)
      end
  end.

(** [std::cin.ignore(max, '\n')]: the rest of the line goes, its newline
    included. *)
Fixpoint ignore_line (s : list ascii) : list ascii :=
  match s with
  | [] => []
  | c :: s' => if bool_decide (c = "010"%char) then s' else ignore_line s'
  end.

(** [char temp; std::cin >> temp;]: whitespace is skipped and one character
    taken. *)
Definition extract_char (s : list ascii) : list ascii := tail (skipws s).

(** The program state of [main]: the board [b], what is left of [std::cin]
    and what has been written to [std::cout]. *)
Record World : Type := mkWorld
  { b : Board.t;
    cin : list ascii;
    cout : list Event }.

Definition say (e : Event) : M World unit :=
  λ w, (inr tt, {| b := b w; cin := cin w; cout := cout w ++ [e] |}).

(** A statement on the object [b]. *)
Definition on_b {A} (m : M Board.t A) : M World A :=
  λ w, let '(r, b') := m (b w) in
       (r, {| b := b'; cin := cin w; cout := cout w |}).

(** A statement on a local [Board] object: the world is untouched, the
    local's new value is handed back. *)
Definition on_local {A} (obj : Board.t) (m : M Board.t A) : M World (A * Board.t) :=
  λ w, match m obj with
       | (inl e, _) => (inl e, w)
       | (inr a, obj') => (inr (a, obj'), w)
       end.

Definition try_catch {S A} (m : M S A) (handler : exn → M S A) : M S A :=
  λ s, match m s with
       | (inl e, s') => handler e s'
       | (inr a, s') => (inr a, s')
       end.

(** [e.what()]; MSVC's default message for an exception built without one *)
Definition what (e : exn) : string :=
  match e with
  | GameOverException => "Unknown exception"%string
  | std_exception msg => msg
  end.

(** [PrintBoard] reads the cells with [GetSpace(i, j)], [i < Height] and
    [j < Width], which is [board[i][j]]; row 0 is printed first. *)
Definition render (bd : Board.t) : Frame :=
  map (λ i, map (λ j, (Board.cell (Board.board bd) i j, Board.IsLastMove i j bd))
                (Board.range 0 Board.Width))
      (Board.range 0 Board.Height).

Definition PrintBoard : M World unit :=
  λ w, say (EvPrintBoard (render (b w))) w.

(** The three ways out of [GetRequestedColumn], in the order of the
    source: [eof()] first, then [fail()] or a number outside
    [1 .. Width], then the column. *)
Definition GetRequestedColumn : M World (option nat) :=
  say EvPrompt ;;;
  λ w, let '(got, rest) := extract_unsigned (cin w) in
       let RequestedColumn := value got in
       if eofbit got
       then (inr None, {| b := b w; cin := rest; cout := cout w |})
       else if failbit got || (RequestedColumn <? 1)%N
                 || (N.of_nat Board.Width <? RequestedColumn)%N
       then (inr None, {| b := b w; cin := ignore_line rest;
                          cout := cout w ++ [EvInvalidInput] |})
       else (inr (Some (N.to_nat RequestedColumn - 1)),
             {| b := b w; cin := rest; cout := cout w |}).

(** What a turn of [main]'s loops reports: go on, or the program is stuck in
    a loop that cannot end (input exhausted, or no playable column). *)
Inductive Step : Type := Continue | Spin.

(** [while (true) { // Loop until valid input].  Away from the end of the
    input every round takes at least one character, so [fuel = length cin]
    rounds without a move mean that the input has ended, where the source
    goes on prompting for ever. *)
Fixpoint main_inputLoop (fuel : nat) (currentPlayer : MoveType.t) : M World Step :=
  match fuel with
  | 0 => ret Spin
  | S fuel' =>
      let! Column := GetRequestedColumn in
      match Column with
      | Some c =>
          try_catch
            (on_b (Board.MakeMove currentPlayer c) ;;; ret Continue)
            (λ e, say (EvText (what e)) ;;; main_inputLoop fuel' currentPlayer)
      | None => main_inputLoop fuel' currentPlayer
      end
  end.

(** "Check for a draw": the value of [isDraw] after the loop over [cols] *)
Fixpoint main_isDraw (cols : list nat) : M World bool :=
  match cols with
  | [] => ret true
  | c :: rest =>
      let! can := on_b (call (Board.CanMakeMove c)) in
      if can then ret false else main_isDraw rest
  end.

(** The trial board of the two search loops:
    [ConnectFour::Board boardWin; boardWin = b;] *)
Definition trialBoard (bd : Board.t) : Board.t := Board.assign Board.new bd.

(** "look for winning play", over the columns [cols] still to try *)
Fixpoint main_lookForWin (cols : list nat) : M World unit :=
  match cols with
  | [] => ret tt
  | i :: rest =>
      let! boardWin := read (λ w, trialBoard (b w)) in
      let! can := on_local boardWin (call (Board.CanMakeMove i)) in
      if can.1 then
        let! moved := on_local boardWin (Board.MakeMove MoveType.Player2 i) in
        if Board.CheckWin SpaceState.Player2 moved.2 then
          on_b (Board.MakeMove MoveType.Player2 i) ;;;
          PrintBoard ;;;
          say (EvText "Player 2 wins!") ;;;
          throw GameOverException
        else main_lookForWin rest
      else main_lookForWin rest
  end.

(** "look for a blocking play"; the result is [bFoundBlock] *)
Fixpoint main_lookForBlock (cols : list nat) : M World bool :=
  match cols with
  | [] => ret false
  | i :: rest =>
      let! boardWin := read (λ w, trialBoard (b w)) in
      let! can := on_local boardWin (call (Board.CanMakeMove i)) in
      if can.1 then
        let! moved := on_local boardWin (Board.MakeMove MoveType.Player1 i) in
        if Board.CheckWin SpaceState.Player1 moved.2 then
          on_b (Board.MakeMove MoveType.Player2 i) ;;;
          let! win := read (λ w, Board.CheckWin SpaceState.Player2 (b w)) in
          if win then
            PrintBoard ;;;
            say (EvText "Player 2 wins!") ;;;
            throw GameOverException
          else ret true
        else main_lookForBlock rest
      else main_lookForBlock rest
  end.

(** The body of the probe loop:
    [autoMove++; if (autoMove > b.Width) autoMove = 1;] *)
Definition next_autoMove (autoMove : nat) : nat :=
  let autoMove' := autoMove + 1 in
  if decide (Board.Width < autoMove') then 1 else autoMove'.

(** [while (!b.CanMakeMove(autoMove - 1))]: the 1-indexed column the probe
    stops at, or [None] when [fuel] rounds found no playable column.
    [Width] rounds visit every column ([probe_finds] below). *)
Fixpoint main_probe (fuel autoMove : nat) : M World (option nat) :=
  match fuel with
  | 0 => ret None
  | S fuel' =>
      let! can := on_b (call (Board.CanMakeMove (autoMove - 1))) in
      if negb can then main_probe fuel' (next_autoMove autoMove)
      else ret (Some autoMove)
  end.

(** The branch "if it's the computer's turn"; [rnd] is the value of
    [rand()]. *)
Definition main_player2 (rnd : nat) : M World Step :=
  let autoMove := 1 + rnd mod Board.Width in
  PrintBoard ;;;
  main_lookForWin (Board.range 0 Board.Width) ;;;
  let! bFoundBlock := main_lookForBlock (Board.range 0 Board.Width) in
  let! random :=
    (if negb bFoundBlock then
       let! found := main_probe Board.Width autoMove in
       match found with
       | Some autoMove' =>
           on_b (Board.MakeMove MoveType.Player2 (autoMove' - 1)) ;;; ret Continue
       | None => ret Spin
       end
     else ret Continue) in
  match random with
  | Spin => ret Spin
  | Continue =>
      let! win := read (λ w, Board.CheckWin
                    (Board.ConvertMoveToSpaceState MoveType.Player2) (b w)) in
      if win then
        PrintBoard ;;;
        say (EvText "Player 2 wins!") ;;;
        throw GameOverException
      else ret Continue
  end.

(** The [try] block of [main]'s outer loop. *)
Definition main_try (rnd : nat) : M World Step :=
  let currentPlayer := MoveType.Player1 in
  PrintBoard ;;;
  let! fuel := read (λ w, length (cin w)) in
  let! moved := main_inputLoop fuel currentPlayer in
  match moved with
  | Spin => ret Spin
  | Continue =>
      let! win := read (λ w, Board.CheckWin
                    (Board.ConvertMoveToSpaceState currentPlayer) (b w)) in
      if win then
        PrintBoard ;;;
        say (EvText (match currentPlayer with
                     | MoveType.Player1 => "Player 1"
                     | MoveType.Player2 => "Player 2"
                     end +:+ " wins!")) ;;;
        throw GameOverException
      else
        let currentPlayer :=
          match currentPlayer with
          | MoveType.Player1 => MoveType.Player2
          | MoveType.Player2 => MoveType.Player1
          end in
        let! isDraw := main_isDraw (Board.range 0 Board.Width) in
        if isDraw then
          PrintBoard ;;;
          say (EvText "It's a draw!") ;;;
          throw GameOverException
        else
          match currentPlayer with
          | MoveType.Player2 => main_player2 rnd
          | MoveType.Player1 => ret Continue
          end
  end.

(** [catch (ConnectFour::GameOverException exc)]: one character is taken
    for [std::cin >> temp], the board is reset, then the beep test. *)
Definition main_gameOver : M World unit :=
  (λ w, (inr tt, {| b := b w; cin := extract_char (cin w); cout := cout w |})) ;;;
  (let newBoard := Board.new in
   on_b (λ bd, (inr tt, Board.assign bd newBoard))) ;;;
  let! win := read (λ w, Board.CheckWin
                (Board.ConvertMoveToSpaceState MoveType.Player2) (b w)) in
  if win then say EvBeep else ret tt.

(** One round of [main]'s outer [while (true)]: the [try] block and its two
    handlers. *)
Definition main_iteration (rnd : nat) : M World Step :=
  try_catch (main_try rnd)
    (λ e, match e with
          | GameOverException => main_gameOver ;;; ret Continue
          | std_exception _ => say (EvText (what e)) ;;; ret Continue
          end).

(** The outer loop, one round per value in [rnds]. *)
Fixpoint main_loop (rnds : list nat) (w : World) : World :=
  match rnds with
  | [] => w
  | rnd :: rest =>
      match main_iteration rnd w with
      | (inr Continue, w') => main_loop rest w'
      | (_, w') => w'
      end
  end.

(** [ConnectFour::Board b;] with the given input and nothing printed yet *)
Definition main_start (input : list ascii) : World :=
  {| b := Board.new; cin := input; cout := [] |}.

(** ** Vocabulary of the properties *)

(** [k] consecutive [MakeMove] calls, the run ending at the first throw. *)
Fixpoint MakeMoves (moves : list (MoveType.t * nat)) : M Board.t unit :=
  match moves with
  | [] => ret tt
  | (Move, Column) :: rest => Board.MakeMove Move Column ;;; MakeMoves rest
  end.

(** A sequence of [MakeMove] calls on a board, each call's exception
    caught: the board after the last call. *)
Definition after_moves (moves : list (MoveType.t * nat)) (bd : Board.t) : Board.t :=
  foldl (λ bd' mv, (Board.MakeMove mv.1 mv.2 bd').2) bd moves.

(** Boards reachable from [Board()] by successful [MakeMove] calls. *)
Inductive reachable : Board.t → Prop :=
| reachable_new : reachable Board.new
| reachable_move bd Move Column bd' :
    reachable bd →
    Board.MakeMove Move Column bd = (inr tt, bd') →
    reachable bd'.

(** Number of non-Empty cells of column [c]. *)
Definition occupied_count (bd : Board.t) (c : nat) : nat :=
  length (filter (λ r, Board.cell (Board.board bd) r c ≠ SpaceState.Empty)
                 (Board.range 0 Board.Height)).

(** Column [c] holds exactly [k] tokens and they fill the rows
    [Height - k .. Height - 1]. *)
Definition stacked (bd : Board.t) (c k : nat) : Prop :=
  k ≤ Board.Height ∧
  ∀ r, r < Board.Height →
       Board.cell (Board.board bd) r c ≠ SpaceState.Empty ↔ Board.Height - k ≤ r.

(** The gravity invariant with row 0 as the bottom: no Empty cell at a
    smaller row index than a non-Empty cell of the same column. *)
Definition gravity_from_row0 (bd : Board.t) : Prop :=
  ∀ c r r', c < Board.Width → r < r' → r' < Board.Height →
    Board.GetSpace r' c bd ≠ inr SpaceState.Empty →
    Board.GetSpace r c bd ≠ inr SpaceState.Empty.

(** The gravity invariant with row [Height - 1] as the bottom: no Empty cell
    at a larger row index than a non-Empty cell of the same column. *)
Definition gravity (bd : Board.t) : Prop :=
  ∀ c r r', c < Board.Width → r < r' → r' < Board.Height →
    Board.GetSpace r c bd ≠ inr SpaceState.Empty →
    Board.GetSpace r' c bd ≠ inr SpaceState.Empty.

(** [bd'] is [bd] with one more token [s] in column [c], put at row [r]
    next to the tokens already there: every row of the column beyond [r]
    is occupied, [r] and the rows before it were Empty. *)
Definition lands (bd : Board.t) (c : nat) (s : SpaceState.t) (bd' : Board.t) (r : nat) : Prop :=
  r < Board.Height
  ∧ (∀ i, i ≤ r → Board.GetSpace i c bd = inr SpaceState.Empty)
  ∧ (∀ i, r < i → i < Board.Height → Board.GetSpace i c bd ≠ inr SpaceState.Empty)
  ∧ Board.GetSpace r c bd' = inr s
  ∧ (∀ i j, (i, j) ≠ (r, c) → Board.GetSpace i j bd' = Board.GetSpace i j bd)
  ∧ Board.LastMove bd' = {| Board.x := c; Board.y := r; Board.isInitialized := true |}.

(** Four cells of one player in a row, in the four directions.  A cell is
    read with [GetSpace], so the four cells are on the board. *)
Definition holds (bd : Board.t) (player : SpaceState.t) (r c : nat) : Prop :=
  Board.GetSpace r c bd = inr player.

Inductive FourInARow (player : SpaceState.t) (bd : Board.t) : Prop :=
| four_horizontal r c :
    holds bd player r c → holds bd player r (c + 1) →
    holds bd player r (c + 2) → holds bd player r (c + 3) →
    FourInARow player bd
| four_vertical r c :
    holds bd player r c → holds bd player (r + 1) c →
    holds bd player (r + 2) c → holds bd player (r + 3) c →
    FourInARow player bd
| four_diagonal1 r c :
    holds bd player r c → holds bd player (r + 1) (c + 1) →
    holds bd player (r + 2) (c + 2) → holds bd player (r + 3) (c + 3) →
    FourInARow player bd
| four_diagonal2 r c :
    holds bd player (r + 3) c → holds bd player (r + 2) (c + 1) →
    holds bd player (r + 1) (c + 2) → holds bd player r (c + 3) →
    FourInARow player bd.

(** The full lines of the board: the row, column, or diagonal through the
    cell [(r0, c0)]. *)
Inductive Direction : Type := Horizontal | Vertical | Diagonal1 | Diagonal2.

Definition on_line (d : Direction) (r0 c0 : nat) (rc : nat * nat) : bool :=
  match d with
  | Horizontal => bool_decide (rc.1 = r0)
  | Vertical => bool_decide (rc.2 = c0)
  | Diagonal1 => bool_decide (rc.1 + c0 = r0 + rc.2)
  | Diagonal2 => bool_decide (rc.1 + rc.2 = r0 + c0)
  end.

Definition squares : list (nat * nat) :=
  flat_map (λ r, map (λ c, (r, c)) (Board.range 0 Board.Width))
           (Board.range 0 Board.Height).

Definition line (d : Direction) (r0 c0 : nat) : list (nat * nat) :=
  filter (λ rc, on_line d r0 c0 rc = true) squares.

(** How many cells of the list hold [player]'s token. *)
Definition tokens_on (player : SpaceState.t) (bd : Board.t) (l : list (nat * nat)) : nat :=
  length (filter (λ rc, Board.cell (Board.board bd) rc.1 rc.2 = player) l).

(** Column [i] is playable and a token of [Move] put there makes
    [CheckWin] true for that player. *)
Definition wins_at (Move : MoveType.t) (i : nat) (bd : Board.t) : bool :=
  match Board.CanMakeMove i bd with
  | inr true =>
      Board.CheckWin (Board.ConvertMoveToSpaceState Move)
        (Board.MakeMove Move i bd).2
  | _ => false
  end.

(** The world after [b.MakeMove(Player2, i)] ... *)
Definition after_move (i : nat) (w : World) : World :=
  {| b := (Board.MakeMove MoveType.Player2 i (b w)).2;
     cin := cin w;
     cout := cout w |}.

(** ... and after the board and the win are printed. *)
Definition after_win (i : nat) (w : World) : World :=
  {| b := (Board.MakeMove MoveType.Player2 i (b w)).2;
     cin := cin w;
     cout := cout w ++ [EvPrintBoard (render (Board.MakeMove MoveType.Player2 i (b w)).2);
                        EvText "Player 2 wins!"] |}.

(** Number of tokens on the board. *)
Definition token_count (bd : Board.t) : nat :=
  length (filter (λ rc, Board.cell (Board.board bd) rc.1 rc.2 ≠ SpaceState.Empty) squares).

(** The grid has its dimensions and the tokens are stacked. *)
Definition board_ok (bd : Board.t) : Prop := Board.wf bd ∧ gravity bd.

(** A statement of [main] that keeps a property of the board [b]. *)
Definition keeps_board {A} (I : Board.t → Prop) (m : M World A) : Prop :=
  ∀ w, I (b w) → I (b (m w).2).

(** Nothing written so far reports a draw. *)
Definition no_draw (w : World) : Prop := EvText "It's a draw!" ∉ cout w.

(** A statement of [main] that never reports a draw. *)
Definition keeps_no_draw {A} (m : M World A) : Prop :=
  ∀ w, no_draw w → no_draw (m w).2.

(** What holds when a round of [main] starts: the board is in order, it
    holds an even number of tokens, and no draw has been reported. *)
Definition round_inv (w : World) : Prop :=
  board_ok (b w) ∧ Nat.even (token_count (b w)) = true ∧ no_draw w.

(** A statement only adds to [std::cout], and never a beep. *)
Definition emits_no_beep {A} (m : M World A) : Prop :=
  ∀ w, ∃ new, cout (m w).2 = cout w ++ new ∧ EvBeep ∉ new.

(** A sample game: Player1 opens with columns 3, 4, 5 (as typed, counted
    from 1) while [rand()] sends Player2 to column 7 twice; Player2 then
    blocks column 2 and Player1 completes the row in column 6.  The last
    character is the key pressed after the game. *)
Definition sample_game : World :=
  main_loop [6; 6; 6; 6]
    (main_start (String.list_ascii_of_string "3 4 5 6 y")).

(** * Properties of the Board class *)

Section BoardFacts.
Import Board.

Implicit Types (g : list (list SpaceState.t)) (bd : Board.t).

Lemma wf_new : wf new.
Proof.
  split; [apply length_replicate|].
  apply Forall_replicate, length_replicate.
Qed.

Lemma cell_new r c : cell (board new) r c = SpaceState.Empty.
Proof.
  unfold cell, new; cbn [board].
  destruct (replicate Height (replicate Width SpaceState.Empty) !! r) as [cells|] eqn:Hr;
    [|done].
  apply lookup_replicate in Hr as [-> _]; cbn [mbind option_bind].
  destruct (replicate Width SpaceState.Empty !! c) as [s|] eqn:Hc; [|done].
  by apply lookup_replicate in Hc as [-> _].
Qed.

(** Writing cell [(r, c)] of a grid: the cell itself, when it exists. *)
Lemma cell_alter_eq g r c s cells :
  g !! r = Some cells → c < length cells →
  cell (alter (λ cs, <[c := s]> cs) r g) r c = s.
Proof.
  intros Hr Hc. unfold cell.
  rewrite list_lookup_alter_eq, Hr; simpl.
  by rewrite list_lookup_insert_eq.
Qed.

(** ... and every other cell. *)
Lemma cell_alter_ne g r c s r' c' :
  (r', c') ≠ (r, c) →
  cell (alter (λ cs, <[c := s]> cs) r g) r' c' = cell g r' c'.
Proof.
  intros Hne. unfold cell.
  destruct (decide (r' = r)) as [->|Hr].
  - rewrite list_lookup_alter_eq.
    destruct (g !! r) as [cells|]; simpl; [|done].
    rewrite list_lookup_insert_ne; [done|congruence].
  - by rewrite list_lookup_alter_ne.
Qed.

Lemma wf_lookup bd r : wf bd → r < Height → ∃ cells, board bd !! r = Some cells ∧ length cells = Width.
Proof.
  intros [Hlen Hall] Hr.
  destruct (lookup_lt_is_Some_2 (board bd) r) as [cells Hcells]; [lia|].
  exists cells; split; [done|].
  by eapply (proj1 (Forall_lookup _ _) Hall).
Qed.

Lemma wf_alter bd r c s lm :
  wf bd → wf {| LastMove := lm; board := alter (λ cs, <[c := s]> cs) r (board bd) |}.
Proof.
  intros [Hlen Hall]; split; simpl.
  - by rewrite length_alter.
  - apply Forall_alter; [done|].
    intros cells _ Hcells. by rewrite length_insert.
Qed.

(** What the scan of [GetColumnHeight] returns: the largest row index below
    [n] whose cell is Empty, or [Height] when there is none. *)
Lemma GetColumnHeight_loop_spec g c n :
  n ≤ Height →
  (GetColumnHeight_loop g c n < n
   ∧ cell g (GetColumnHeight_loop g c n) c = SpaceState.Empty
   ∧ ∀ i, GetColumnHeight_loop g c n < i < n → cell g i c ≠ SpaceState.Empty)
  ∨ (GetColumnHeight_loop g c n = Height
     ∧ ∀ i, i < n → cell g i c ≠ SpaceState.Empty).
Proof.
  induction n as [|n IH]; intros Hn; simpl.
  - right; split; [done|lia].
  - destruct (decide (cell g n c = SpaceState.Empty)) as [He|He].
    + left; repeat split; [lia|done|lia].
    + destruct IH as [(Hlt & Hcell & Habove)|[Heq Hall]]; [lia| |].
      * left; repeat split; [lia|done|].
        intros i Hi. destruct (decide (i = n)) as [->|]; [done|].
        apply Habove; lia.
      * right; split; [done|].
        intros i Hi. destruct (decide (i = n)) as [->|]; [done|].
        apply Hall; lia.
Qed.

(** [MakeMove], case by case. *)
Lemma MakeMove_unfold Move c bd :
  MakeMove Move c bd =
    if decide (Width ≤ c) then (inl (std_exception "Column out of range"), bd)
    else
      let h := GetColumnHeight_loop (board bd) c Height in
      if decide (h < Height) then
        (inr tt,
         {| LastMove := {| x := c; y := h; isInitialized := true |};
            board := alter (λ cs, <[c := ConvertMoveToSpaceState Move]> cs) h (board bd) |})
      else (inl (std_exception "Cannot make move"), bd).
Proof.
  unfold MakeMove, bind, call, CanMakeMove, GetColumnHeight, SetSpace, throw.
  cbv beta iota zeta.
  destruct (decide (Width ≤ c)); [done|].
  destruct (decide (GetColumnHeight_loop (board bd) c Height < Height)) as [Hlt|Hge].
  - rewrite bool_decide_eq_true_2 by done; cbn [negb]; cbv beta iota.
    destruct (decide (Height ≤ _)); [lia|done].
  - by rewrite bool_decide_eq_false_2.
Qed.

Lemma CanMakeMove_unfold c bd :
  CanMakeMove c bd =
    if decide (Width ≤ c) then inl (std_exception "Column out of range")
    else inr (bool_decide (GetColumnHeight_loop (board bd) c Height < Height)).
Proof.
  unfold CanMakeMove, GetColumnHeight. by destruct (decide (Width ≤ c)).
Qed.

Lemma MakeMove_wf Move c bd bd' r :
  wf bd → MakeMove Move c bd = (r, bd') → wf bd'.
Proof.
  intros Hwf. rewrite MakeMove_unfold; cbv zeta.
  repeat case_decide; intros [= <- <-]; try done.
  by apply wf_alter.
Qed.

Lemma GetSpace_cell bd r c :
  r < Height → c < Width → GetSpace r c bd = inr (cell (board bd) r c).
Proof.
  intros Hr Hc. unfold GetSpace.
  destruct (decide (Height ≤ r)); [lia|].
  destruct (decide (Width ≤ c)); [lia|done].
Qed.

Lemma GetSpace_inr bd r c s :
  GetSpace r c bd = inr s → r < Height ∧ c < Width ∧ cell (board bd) r c = s.
Proof.
  unfold GetSpace.
  destruct (decide (Height ≤ r)); [done|].
  destruct (decide (Width ≤ c)); [done|].
  intros [= <-]. repeat split; lia.
Qed.

Lemma GetSpace_Empty_iff bd r c :
  r < Height → c < Width →
  GetSpace r c bd = inr SpaceState.Empty ↔ cell (board bd) r c = SpaceState.Empty.
Proof.
  intros Hr Hc. rewrite GetSpace_cell by done.
  split; [by intros [= ->]|by intros ->].
Qed.

Lemma Convert_not_Empty Move : ConvertMoveToSpaceState Move ≠ SpaceState.Empty.
Proof. by destruct Move. Qed.

(** A successful [MakeMove] writes the largest Empty row index of the
    column; on a board with the gravity invariant the rows before it are
    Empty too. *)
Lemma MakeMove_lands Move c bd bd' :
  wf bd → gravity bd → MakeMove Move c bd = (inr tt, bd') →
  c < Width ∧ ∃ r, lands bd c (ConvertMoveToSpaceState Move) bd' r.
Proof.
  intros Hwf Hg. rewrite MakeMove_unfold; cbv zeta.
  destruct (decide (Width ≤ c)) as [|Hc]; [done|].
  destruct (decide (_ < Height)) as [Hlt|]; [|done].
  intros [= <-]. split; [lia|].
  set (h := GetColumnHeight_loop (board bd) c Height) in *.
  destruct (GetColumnHeight_loop_spec (board bd) c Height) as
    [(_ & Hempty & Habove)|[Heq _]]; [done| |fold h in Heq; lia].
  fold h in Hempty, Habove.
  assert (Hc' : c < Width) by lia.
  exists h. unfold lands. split; [done|]. split; [|split; [|split; [|split]]].
  - intros i Hi. apply GetSpace_Empty_iff; [lia|done|].
    destruct (decide (i = h)) as [->|Hne]; [done|].
    destruct (decide (cell (board bd) i c = SpaceState.Empty)) as [|Hocc]; [done|].
    exfalso. apply (Hg c i h); [done|lia|done| |].
    + by rewrite GetSpace_Empty_iff by (done || lia).
    + by apply GetSpace_Empty_iff.
  - intros i Hi Hi'. rewrite GetSpace_Empty_iff by done. apply Habove; lia.
  - rewrite GetSpace_cell by done; cbn [board].
    destruct (wf_lookup bd h Hwf Hlt) as (cells & Hcells & Hlen).
    f_equal. eapply cell_alter_eq; [done|lia].
  - intros i j Hne. unfold GetSpace; cbn [board].
    by rewrite cell_alter_ne.
  - done.
Qed.

Lemma lands_gravity bd c s bd' r :
  s ≠ SpaceState.Empty → c < Width → gravity bd → lands bd c s bd' r → gravity bd'.
Proof.
  intros Hs Hc Hg (Hr & Hbefore & Hbeyond & Hnew & Hframe & _) c' i i' Hc' Hlt Hi' Hocc.
  destruct (decide ((i', c') = (r, c))) as [[= -> ->]|Hne'].
  - rewrite Hnew. by intros [= ?].
  - rewrite Hframe by done.
    destruct (decide ((i, c') = (r, c))) as [[= -> ->]|Hne].
    + apply Hbeyond; lia.
    + rewrite Hframe in Hocc by done. by apply (Hg c' i i').
Qed.

Lemma gravity_new : gravity new.
Proof.
  intros c r r' Hc Hlt Hr' Hocc. exfalso; apply Hocc.
  rewrite GetSpace_cell by lia. by rewrite cell_new.
Qed.

Lemma reachable_wf_gravity bd : reachable bd → wf bd ∧ gravity bd.
Proof.
  induction 1 as [|bd Move c bd' _ [IHwf IHg] Hmove].
  - split; [apply wf_new|apply gravity_new].
  - split; [by eapply MakeMove_wf|].
    destruct (MakeMove_lands _ _ _ _ IHwf IHg Hmove) as [Hc [r Hl]].
    eapply lands_gravity; [apply Convert_not_Empty|done..].
Qed.

(** *** Columns as stacks *)

Lemma stacked_new c : stacked new c 0.
Proof.
  split; [lia|]. intros r Hr. rewrite cell_new. split; [done|lia].
Qed.

Lemma GetColumnHeight_stacked bd c k :
  c < Width → stacked bd c k →
  GetColumnHeight c bd =
    inr (if decide (k = Height) then Height else Height - 1 - k).
Proof.
  intros Hc [Hk Hst]. unfold GetColumnHeight.
  destruct (decide (Width ≤ c)); [lia|]. f_equal.
  destruct (GetColumnHeight_loop_spec (board bd) c Height) as
    [(Hlt & Hempty & Habove)|[Heq Hall]]; [done| |].
  - set (h := GetColumnHeight_loop (board bd) c Height) in *.
    assert (¬ Height - k ≤ h) by (intros Hge; by apply (Hst h Hlt) in Hge).
    destruct (decide (k = Height)) as [->|]; [lia|].
    destruct (decide (h = Height - 1 - k)) as [|Hne]; [done|].
    exfalso. apply (Habove (Height - 1 - k)); [lia|].
    destruct (decide (cell (board bd) (Height - 1 - k) c = SpaceState.Empty)) as [|Hocc];
      [done|].
    apply Hst in Hocc; lia.
  - rewrite Heq. destruct (decide (k = Height)) as [|Hne]; [done|].
    exfalso. assert (H0 : 0 < Height) by (unfold Height; lia).
    pose proof (Hall (Height - 1 - k) ltac:(lia)) as Hocc.
    apply Hst in Hocc; lia.
Qed.

Lemma MakeMove_stacked Move bd c k :
  wf bd → c < Width → stacked bd c k → k < Height →
  ∃ bd', MakeMove Move c bd = (inr tt, bd') ∧ wf bd' ∧ stacked bd' c (S k).
Proof.
  intros Hwf Hc Hst Hk.
  pose proof (GetColumnHeight_stacked bd c k Hc Hst) as Hh.
  unfold GetColumnHeight in Hh.
  destruct (decide (Width ≤ c)); [lia|].
  destruct (decide (k = Height)); [lia|]. apply (inj inr) in Hh.
  rewrite MakeMove_unfold; cbv zeta.
  destruct (decide (Width ≤ c)); [lia|]. rewrite Hh.
  destruct (decide (Height - 1 - k < Height)); [|lia].
  eexists; split; [done|]. split; [by apply wf_alter|].
  destruct Hst as [_ Hst]. split; [lia|].
  intros r Hr; cbn [board].
  destruct (decide (r = Height - 1 - k)) as [->|Hne].
  - destruct (wf_lookup bd (Height - 1 - k) Hwf) as (cells & Hcells & Hlen); [lia|].
    erewrite cell_alter_eq; [|done|lia].
    split; [lia|]. intros _. apply Convert_not_Empty.
  - rewrite cell_alter_ne by congruence. rewrite Hst by done. lia.
Qed.

Lemma MakeMoves_stacked moves bd c j :
  wf bd → c < Width → stacked bd c j → j + length moves ≤ Height →
  Forall (λ m, m.2 = c) moves →
  ∃ bd', MakeMoves moves bd = (inr tt, bd') ∧ wf bd'
         ∧ stacked bd' c (j + length moves).
Proof.
  revert bd j. induction moves as [|[Move c'] moves IH]; intros bd j Hwf Hc Hst Hlen Hall.
  - exists bd. rewrite Nat.add_0_r. done.
  - apply Forall_cons in Hall as [Hc' Hall]; simpl in Hc'; subst c'.
    cbn [length] in *.
    destruct (MakeMove_stacked Move bd c j) as (bd1 & Hmove & Hwf1 & Hst1);
      [done|done|done|lia|].
    destruct (IH bd1 (S j)) as (bd' & Hmoves & Hwf' & Hst'); [done|done|done|lia|done|].
    exists bd'. split; [|split; [done|]].
    + cbn [MakeMoves]. unfold bind. by rewrite Hmove.
    + by replace (j + S (length moves)) with (S j + length moves) by lia.
Qed.

Lemma length_filter_ge a n :
  length (filter (λ r, a ≤ r) (seq 0 n)) = n - a.
Proof.
  induction n as [|n IH]; [done|].
  rewrite seq_S, filter_app, length_app, IH; cbn [Nat.add].
  rewrite filter_cons, filter_nil.
  destruct (decide (a ≤ n)); simpl; lia.
Qed.

Lemma filter_ext_elem {A} (P Q : A → Prop)
    `{!∀ a, Decision (P a), !∀ a, Decision (Q a)} (l : list A) :
  (∀ a, a ∈ l → P a ↔ Q a) → filter P l = filter Q l.
Proof.
  induction l as [|a l IH]; intros Hext; [done|].
  rewrite !filter_cons.
  rewrite IH by (intros a' Ha'; apply Hext; by right).
  pose proof (Hext a ltac:(by left)) as Ha.
  destruct (decide (P a)), (decide (Q a)); tauto.
Qed.

Lemma occupied_count_stacked bd c k : stacked bd c k → occupied_count bd c = k.
Proof.
  intros [Hk Hst]. unfold occupied_count, range.
  rewrite Nat.sub_0_r.
  transitivity (length (filter (λ r, Height - k ≤ r) (seq 0 Height))).
  - f_equal. apply filter_ext_elem.
    intros r Hr%list_elem_of_In%in_seq. apply Hst; lia.
  - rewrite length_filter_ge. lia.
Qed.

(** What [GetColumnHeight] returns after [k] tokens went into column [c] of
    the empty board: the number of Empty rows less one, and [Height] only
    for the full column. *)
Lemma GetColumnHeight_after_moves c k :
  c < Width → k ≤ Height →
  ∃ bd, MakeMoves (replicate k (MoveType.Player1, c)) new = (inr tt, bd)
        ∧ occupied_count bd c = k
        ∧ GetColumnHeight c bd =
            inr (if decide (k = Height) then Height else Height - 1 - k).
Proof.
  intros Hc Hk.
  destruct (MakeMoves_stacked (replicate k (MoveType.Player1, c)) new c 0)
    as (bd & Hrun & Hwf & Hst).
  - apply wf_new.
  - done.
  - apply stacked_new.
  - rewrite length_replicate. lia.
  - by apply Forall_replicate.
  - rewrite length_replicate in Hst; cbn [Nat.add] in Hst.
    exists bd. split; [done|]. split.
    + by apply occupied_count_stacked.
    + by apply GetColumnHeight_stacked.
Qed.

(** C1 (code evaluated where it departs from the claim): on the empty board
    column 0 holds no token, yet [GetColumnHeight 0] returns 5; after two
    successful [MakeMove] calls on column 0 the column holds two tokens and
    [GetColumnHeight 0] returns 3.  The function returns the index of the
    last Empty row of the column, not the number of pieces its summary
    announces. *)
Theorem GetColumnHeight_is_not_the_piece_count :
  occupied_count new 0 = 0
  ∧ GetColumnHeight 0 new = inr 5
  ∧ ∃ bd, MakeMoves (replicate 2 (MoveType.Player1, 0)) new = (inr tt, bd)
          ∧ occupied_count bd 0 = 2
          ∧ GetColumnHeight 0 bd = inr 3.
Proof.
  split; [reflexivity|]. split; [reflexivity|].
  eexists. split; [reflexivity|]. split; reflexivity.
Qed.

(** The stacking the code has: on every board reachable from the empty
    board, inside a column no Empty cell has a larger row index than a
    non-Empty cell (the tokens lie against row [Height - 1]).  A successful
    [MakeMove] keeps this; its token goes to the last Empty row of the
    column, directly before the tokens already there, no other cell
    changes, and [LastMove] records the cell. *)
Lemma gravity_invariant bd :
  reachable bd →
  gravity bd
  ∧ ∀ Move c bd',
      MakeMove Move c bd = (inr tt, bd') →
      gravity bd' ∧ ∃ r, lands bd c (ConvertMoveToSpaceState Move) bd' r.
Proof.
  intros Hreach.
  destruct (reachable_wf_gravity bd Hreach) as [Hwf Hg].
  split; [done|].
  intros Move c bd' Hmove.
  destruct (MakeMove_lands Move c bd bd' Hwf Hg Hmove) as [Hc [r Hl]].
  split; [|by exists r].
  eapply lands_gravity; [apply Convert_not_Empty|done..].
Qed.

Lemma gravity_invariant_witness :
  reachable (MakeMove MoveType.Player1 3 new).2
  ∧ gravity (MakeMove MoveType.Player1 3 new).2
  ∧ gravity (MakeMove MoveType.Player2 3 (MakeMove MoveType.Player1 3 new).2).2.
Proof.
  assert (Hreach : reachable (MakeMove MoveType.Player1 3 new).2)
    by (apply (reachable_move new MoveType.Player1 3); [apply reachable_new|reflexivity]).
  split; [exact Hreach|].
  destruct (gravity_invariant _ Hreach) as [Hg Hstep].
  split; [exact Hg|].
  exact (proj1 (Hstep MoveType.Player2 3 _ eq_refl)).
Defined.

(** C2 (code evaluated where it departs from the claim): [MakeMove] writes
    the row that [GetColumnHeight] returns, and on the empty board that is
    row 5, not row 0 (the defect of C1).  So the one token dropped into
    column 0 of the empty board lies in row 5 with the Empty rows 0 to 4 at
    smaller row indices, it is recorded there by [LastMove], and the
    invariant counted from row 0 fails on this reachable board. *)
Theorem gravity_from_row0_fails :
  GetColumnHeight 0 new = inr 5
  ∧ ∃ bd, MakeMove MoveType.Player1 0 new = (inr tt, bd)
          ∧ reachable bd
          ∧ GetSpace 5 0 bd = inr SpaceState.Player1
          ∧ (∀ r, r < 5 → GetSpace r 0 bd = inr SpaceState.Empty)
          ∧ IsLastMove 5 0 bd = true
          ∧ ¬ gravity_from_row0 bd.
Proof.
  split; [reflexivity|].
  eexists. split; [reflexivity|]. split; [|split; [reflexivity|split; [|split]]].
  - apply (reachable_move new MoveType.Player1 0); [apply reachable_new|reflexivity].
  - intros r Hr. by do 5 (destruct r as [|r]; [reflexivity|]); lia.
  - reflexivity.
  - intros Hg. apply (Hg 0 0 5).
    + unfold Width; lia.
    + lia.
    + unfold Height; lia.
    + discriminate.
    + reflexivity.
Qed.

(** C4: on a full column ([CanMakeMove] returns false) [MakeMove] throws
    "Cannot make move" and the board object, grid and [LastMove], is what
    it was before the call. *)
Theorem MakeMove_full_column bd Move c :
  CanMakeMove c bd = inr false →
  MakeMove Move c bd = (inl (std_exception "Cannot make move"), bd).
Proof.
  intros Hfull. unfold MakeMove, bind, call. by rewrite Hfull.
Qed.

Lemma MakeMove_full_column_witness :
  let full := (MakeMoves (replicate 6 (MoveType.Player1, 0)) new).2 in
  CanMakeMove 0 full = inr false
  ∧ MakeMove MoveType.Player2 0 full = (inl (std_exception "Cannot make move"), full).
Proof.
  split; [reflexivity|].
  apply MakeMove_full_column. reflexivity.
Defined.

(** C8: on every reachable board and for every column [c < Width],
    [CanMakeMove c] returns a boolean, which is true exactly when
    [GetColumnHeight c] is below [Height], and exactly when some cell of
    the column is Empty. *)
Theorem CanMakeMove_iff_not_full bd c :
  reachable bd → c < Width →
  ∃ ok h,
    CanMakeMove c bd = inr ok
    ∧ GetColumnHeight c bd = inr h
    ∧ (ok = true ↔ h < Height)
    ∧ (ok = true ↔ ∃ r, r < Height ∧ GetSpace r c bd = inr SpaceState.Empty).
Proof.
  intros _ Hc. rewrite CanMakeMove_unfold. unfold GetColumnHeight.
  destruct (decide (Width ≤ c)); [lia|].
  eexists _, _. split; [done|]. split; [done|].
  rewrite bool_decide_eq_true. split; [done|].
  destruct (GetColumnHeight_loop_spec (board bd) c Height) as
    [(Hlt & Hempty & _)|[Heq Hall]]; [done| |].
  - split; [|done]. intros _. eexists; split; [exact Hlt|].
    by apply GetSpace_Empty_iff.
  - split; [rewrite Heq; lia|].
    intros (r & Hr & Hempty). apply GetSpace_Empty_iff in Hempty; [|done..].
    by apply Hall in Hempty.
Qed.

Lemma CanMakeMove_iff_not_full_witness :
  let bd := (MakeMoves [(MoveType.Player1, 2); (MoveType.Player2, 2)] new).2 in
  ∃ ok h,
    CanMakeMove 2 bd = inr ok
    ∧ GetColumnHeight 2 bd = inr h
    ∧ (ok = true ↔ h < Height)
    ∧ (ok = true ↔ ∃ r, r < Height ∧ GetSpace r 2 bd = inr SpaceState.Empty).
Proof.
  apply CanMakeMove_iff_not_full.
  - apply (reachable_move (MakeMove MoveType.Player1 2 new).2 MoveType.Player2 2);
      [|reflexivity].
    apply (reachable_move new MoveType.Player1 2); [apply reachable_new|reflexivity].
  - unfold Width; lia.
Defined.

(** *** CheckWin *)

Lemma existsb_range lo hi (f : nat → bool) :
  existsb f (range lo hi) = true ↔ ∃ i, lo ≤ i ∧ i < hi ∧ f i = true.
Proof.
  unfold range. rewrite existsb_exists. split.
  - intros (i & Hin%in_seq & Hf). exists i. repeat split; [lia|lia|done].
  - intros (i & Hlo & Hhi & Hf). exists i. split; [apply in_seq; lia|done].
Qed.

Lemma is_player_true g player r c :
  is_player g player r c = true ↔ cell g r c = player.
Proof. unfold is_player. apply bool_decide_eq_true. Qed.

Ltac four_cells :=
  rewrite ?andb_true_iff, ?is_player_true in *.

Lemma CheckWin_horizontal_spec player g :
  CheckWin_horizontal player g = true ↔
  ∃ r c, r < Height ∧ c + 3 < Width
         ∧ cell g r c = player ∧ cell g r (c + 1) = player
         ∧ cell g r (c + 2) = player ∧ cell g r (c + 3) = player.
Proof.
  unfold CheckWin_horizontal. rewrite existsb_range. split.
  - intros (r & _ & Hr & (c & _ & Hc & H4)%existsb_range). four_cells.
    exists r, c. unfold Width in *. repeat split; (lia || tauto).
  - intros (r & c & Hr & Hc & H1 & H2 & H3 & H4).
    exists r. repeat split; [lia|done|]. apply existsb_range.
    exists c. unfold Width in *. four_cells. repeat split; (lia || done).
Qed.

Lemma CheckWin_vertical_spec player g :
  CheckWin_vertical player g = true ↔
  ∃ r c, r + 3 < Height ∧ c < Width
         ∧ cell g r c = player ∧ cell g (r + 1) c = player
         ∧ cell g (r + 2) c = player ∧ cell g (r + 3) c = player.
Proof.
  unfold CheckWin_vertical. rewrite existsb_range. split.
  - intros (c & _ & Hc & (r & _ & Hr & H4)%existsb_range). four_cells.
    exists r, c. unfold Height in *. repeat split; (lia || tauto).
  - intros (r & c & Hr & Hc & H1 & H2 & H3 & H4).
    exists c. repeat split; [lia|done|]. apply existsb_range.
    exists r. unfold Height in *. four_cells. repeat split; (lia || done).
Qed.

Lemma CheckWin_diagonal1_spec player g :
  CheckWin_diagonal1 player g = true ↔
  ∃ r c, r + 3 < Height ∧ c + 3 < Width
         ∧ cell g r c = player ∧ cell g (r + 1) (c + 1) = player
         ∧ cell g (r + 2) (c + 2) = player ∧ cell g (r + 3) (c + 3) = player.
Proof.
  unfold CheckWin_diagonal1. rewrite existsb_range. split.
  - intros (r & _ & Hr & (c & _ & Hc & H4)%existsb_range). four_cells.
    exists r, c. unfold Height, Width in *. repeat split; (lia || tauto).
  - intros (r & c & Hr & Hc & H1 & H2 & H3 & H4).
    exists r. unfold Height, Width in *. repeat split; [lia|lia|].
    apply existsb_range.
    exists c. four_cells. repeat split; (lia || done).
Qed.

Lemma CheckWin_diagonal2_spec player g :
  CheckWin_diagonal2 player g = true ↔
  ∃ r c, r + 3 < Height ∧ c + 3 < Width
         ∧ cell g (r + 3) c = player ∧ cell g (r + 2) (c + 1) = player
         ∧ cell g (r + 1) (c + 2) = player ∧ cell g r (c + 3) = player.
Proof.
  unfold CheckWin_diagonal2. rewrite existsb_range. split.
  - intros (r & Hr3 & Hr & (c & _ & Hc & H4)%existsb_range). four_cells.
    exists (r - 3), c. unfold Height, Width in *.
    replace (r - 3 + 3) with r by lia.
    replace (r - 3 + 2) with (r - 1) by lia.
    replace (r - 3 + 1) with (r - 2) by lia.
    repeat split; (lia || tauto).
  - intros (r & c & Hr & Hc & H1 & H2 & H3 & H4).
    exists (r + 3). unfold Height, Width in *. repeat split; [lia|lia|].
    apply existsb_range.
    exists c. four_cells.
    replace (r + 3 - 1) with (r + 2) by lia.
    replace (r + 3 - 2) with (r + 1) by lia.
    replace (r + 3 - 3) with r by lia.
    repeat split; (lia || done).
Qed.

Lemma holds_cell bd player r c :
  holds bd player r c ↔ r < Height ∧ c < Width ∧ cell (board bd) r c = player.
Proof.
  unfold holds. split.
  - apply GetSpace_inr.
  - intros (Hr & Hc & <-). by apply GetSpace_cell.
Qed.

(** [CheckWin] finds exactly the fours. *)
Lemma CheckWin_iff player bd : CheckWin player bd = true ↔ FourInARow player bd.
Proof.
  unfold CheckWin. rewrite !orb_true_iff.
  rewrite CheckWin_horizontal_spec, CheckWin_vertical_spec,
    CheckWin_diagonal1_spec, CheckWin_diagonal2_spec.
  split.
  - intros [[[H|H]|H]|H]; destruct H as (r & c & Hr & Hc & H1 & H2 & H3 & H4).
    + apply (four_horizontal player bd r c); apply holds_cell; repeat split; (lia || done).
    + apply (four_vertical player bd r c); apply holds_cell; repeat split; (lia || done).
    + apply (four_diagonal1 player bd r c); apply holds_cell; repeat split; (lia || done).
    + apply (four_diagonal2 player bd r c); apply holds_cell; repeat split; (lia || done).
  - intros [r c H1 H2 H3 H4|r c H1 H2 H3 H4|r c H1 H2 H3 H4|r c H1 H2 H3 H4];
      apply holds_cell in H1, H2, H3, H4.
    + left; left; left. exists r, c. repeat split; (lia || tauto).
    + left; left; right. exists r, c. repeat split; (lia || tauto).
    + left; right. exists r, c. repeat split; (lia || tauto).
    + right. exists r, c. repeat split; (lia || tauto).
Qed.

Lemma elem_of_squares r c : r < Height → c < Width → (r, c) ∈ squares.
Proof.
  intros Hr Hc. apply list_elem_of_In, in_flat_map.
  exists r. split; [apply in_seq; lia|].
  apply in_map_iff. exists c. split; [done|apply in_seq; lia].
Qed.

(** Four different cells of a line that hold the player's token. *)
Lemma four_on_line player bd d r0 c0 (s1 s2 s3 s4 : nat * nat) :
  NoDup [s1; s2; s3; s4] →
  Forall (λ rc, holds bd player rc.1 rc.2 ∧ on_line d r0 c0 rc = true) [s1; s2; s3; s4] →
  4 ≤ tokens_on player bd (line d r0 c0).
Proof.
  intros Hnd Hall. unfold tokens_on, line.
  change 4 with (length [s1; s2; s3; s4]).
  apply submseteq_length, NoDup_submseteq; [done|].
  intros [r c] Hin.
  destruct (proj1 (Forall_forall _ _) Hall _ Hin) as [Hholds Hline].
  apply holds_cell in Hholds as (Hr & Hc & Hcell).
  apply list_elem_of_filter. split; [done|].
  apply list_elem_of_filter. split; [done|by apply elem_of_squares].
Qed.

Ltac distinct_squares :=
  repeat (apply NoDup_cons; split;
          [rewrite ?elem_of_cons, elem_of_nil; intros Hin;
           repeat (destruct Hin as [Hin|Hin]); try done;
           injection Hin; lia|]);
  apply NoDup_nil_2.

Lemma FourInARow_line player bd :
  FourInARow player bd → ∃ d r0 c0, 4 ≤ tokens_on player bd (line d r0 c0).
Proof.
  intros [r c H1 H2 H3 H4|r c H1 H2 H3 H4|r c H1 H2 H3 H4|r c H1 H2 H3 H4].
  - exists Horizontal, r, c.
    apply (four_on_line _ _ _ _ _ (r, c) (r, c + 1) (r, c + 2) (r, c + 3));
      [distinct_squares|].
    repeat (apply Forall_cons; split; [split; [done|]|]); try apply Forall_nil_2;
      unfold on_line; apply bool_decide_eq_true; simpl; lia.
  - exists Vertical, r, c.
    apply (four_on_line _ _ _ _ _ (r, c) (r + 1, c) (r + 2, c) (r + 3, c));
      [distinct_squares|].
    repeat (apply Forall_cons; split; [split; [done|]|]); try apply Forall_nil_2;
      unfold on_line; apply bool_decide_eq_true; simpl; lia.
  - exists Diagonal1, r, c.
    apply (four_on_line _ _ _ _ _ (r, c) (r + 1, c + 1) (r + 2, c + 2) (r + 3, c + 3));
      [distinct_squares|].
    repeat (apply Forall_cons; split; [split; [done|]|]); try apply Forall_nil_2;
      unfold on_line; apply bool_decide_eq_true; simpl; lia.
  - exists Diagonal2, r, (c + 3).
    apply (four_on_line _ _ _ _ _ (r + 3, c) (r + 2, c + 1) (r + 1, c + 2) (r, c + 3));
      [distinct_squares|].
    repeat (apply Forall_cons; split; [split; [done|]|]); try apply Forall_nil_2;
      unfold on_line; apply bool_decide_eq_true; simpl; lia.
Qed.

(** C3: [CheckWin player] returns true on every board that holds four of
    [player]'s tokens in consecutive cells of a row, a column or either
    diagonal, and false on every board none of whose lines (rows, columns,
    diagonals of both kinds) holds more than three of them. *)
Theorem CheckWin_correct player bd :
  (FourInARow player bd → CheckWin player bd = true)
  ∧ ((∀ d r0 c0, tokens_on player bd (line d r0 c0) ≤ 3) →
     CheckWin player bd = false).
Proof.
  split.
  - apply CheckWin_iff.
  - intros Hlines. apply not_true_is_false. intros Hwin%CheckWin_iff.
    destruct (FourInARow_line player bd Hwin) as (d & r0 & c0 & H4).
    specialize (Hlines d r0 c0). lia.
Qed.

Lemma tokens_on_line_le player bd d r0 c0 :
  tokens_on player bd (line d r0 c0) ≤ tokens_on player bd squares.
Proof.
  unfold tokens_on, line. induction squares as [|rc l IH]; [done|].
  rewrite !filter_cons.
  repeat (case_decide; rewrite ?filter_cons; cbn [length]); lia.
Qed.

Lemma CheckWin_correct_witness :
  let three := (MakeMoves [(MoveType.Player1, 0); (MoveType.Player2, 1);
                           (MoveType.Player1, 0); (MoveType.Player2, 1);
                           (MoveType.Player1, 0); (MoveType.Player2, 1)] new).2 in
  let four := (MakeMove MoveType.Player1 0 three).2 in
  CheckWin SpaceState.Player1 four = true
  ∧ CheckWin SpaceState.Player1 three = false.
Proof.
  split.
  - apply (proj1 (CheckWin_correct _ _)).
    apply (four_vertical _ _ 2 0); reflexivity.
  - apply (proj2 (CheckWin_correct _ _)).
    intros d r0 c0.
    eapply Nat.le_trans; [apply tokens_on_line_le|].
    vm_compute. apply le_n.
Defined.

End BoardFacts.

(** * Copies of a board *)

Section Copies.
Import Board Memory.

Implicit Types (m : mem) (vecs : gmap nat (list SpaceState.t)).

Lemma load_rows_ext vecs vecs' rows :
  (∀ p, p ∈ rows → vecs' !! p = vecs !! p) →
  load_rows vecs' rows = load_rows vecs rows.
Proof.
  induction rows as [|p rows IH]; intros Hsame; [done|].
  cbn [load_rows]. rewrite Hsame by (by left).
  rewrite IH; [done|]. intros q Hq. apply Hsame. by right.
Qed.

Lemma load_rows_length vecs rows g :
  load_rows vecs rows = Some g → length g = length rows.
Proof.
  revert g. induction rows as [|p rows IH]; intros g; cbn [load_rows].
  - by intros [= <-].
  - destruct (vecs !! p); [|done]. destruct (load_rows vecs rows) as [g'|]; [|done].
    intros [= <-]. cbn [length]. by rewrite (IH g').
Qed.

Lemma list_alter_beyond {A} (f : A → A) (l : list A) i :
  length l ≤ i → alter f i l = l.
Proof.
  revert i. induction l as [|a l IH]; intros i Hi; [done|].
  destruct i as [|i]; [cbn in Hi; lia|]. cbn [length] in Hi.
  change (alter f (S i) (a :: l)) with (a :: alter f i l). rewrite IH; [done|lia].
Qed.

(** A write into one row of an object, seen through [load_rows]. *)
Lemma load_rows_alter vecs rows (f : list SpaceState.t → list SpaceState.t) :
  ∀ Row p g,
    NoDup rows → rows !! Row = Some p → load_rows vecs rows = Some g →
    load_rows (alter f p vecs) rows = Some (alter f Row g).
Proof.
  induction rows as [|q rows IH]; intros Row p g Hnd Hrow Hload; [done|].
  apply NoDup_cons in Hnd as [Hq Hnd]. cbn [load_rows] in *.
  destruct (vecs !! q) as [cells|] eqn:Hcells; [|done].
  destruct (load_rows vecs rows) as [g'|] eqn:Hrest; [|done].
  injection Hload as <-.
  destruct Row as [|Row]; cbn in Hrow.
  - injection Hrow as ->. rewrite lookup_alter_eq, Hcells; cbn [fmap option_fmap option_map].
    rewrite (load_rows_ext vecs); [by rewrite Hrest|].
    intros p' Hp'. apply lookup_alter_ne. by intros ->.
  - assert (p ≠ q) by (intros ->; by apply list_elem_of_lookup_2 in Hrow).
    rewrite lookup_alter_ne, Hcells by done.
    by rewrite (IH Row p g' Hnd Hrow eq_refl).
Qed.

Lemma alloc_rows_spec values : ∀ vecs nx rows vecs' nx',
  alloc_rows values vecs nx = (rows, vecs', nx') →
  rows = seq nx (length values)
  ∧ nx' = nx + length values
  ∧ (∀ p, p < nx → vecs' !! p = vecs !! p)
  ∧ load_rows vecs' rows = Some values.
Proof.
  induction values as [|cells values IH]; intros vecs nx rows vecs' nx'.
  - intros [= <- <- <-]. cbn [length seq]. split; [done|]. split; [lia|done].
  - cbn [alloc_rows].
    destruct (alloc_rows values (<[nx := cells]> vecs) (S nx)) as [[rows1 vecs1] nx1] eqn:Hrec.
    intros [= <- <- <-].
    destruct (IH _ _ _ _ _ Hrec) as (-> & -> & Hold & Hload).
    cbn [length seq]. split; [done|]. split; [lia|]. split.
    + intros p Hp. rewrite Hold by lia. apply lookup_insert_ne. lia.
    + cbn [load_rows]. rewrite Hold by lia. by rewrite lookup_insert_eq, Hload.
Qed.

Lemma load_Some m a bd :
  load m a = Some bd →
  ∃ o, objects m !! a = Some o
       ∧ load_rows (vectors m) (obj_rows o) = Some (board bd)
       ∧ LastMove bd = obj_LastMove o.
Proof.
  unfold load. destruct (objects m !! a) as [o|]; [|done]. cbn.
  destruct (load_rows (vectors m) (obj_rows o)) as [g|] eqn:Hrows; [|done]. cbn.
  intros [= <-]. exists o. by rewrite Hrows.
Qed.

Lemma ok_empty : ok empty.
Proof.
  split.
  - intros a o Ho. cbn in Ho. by rewrite lookup_empty in Ho.
  - intros a a' o o' p _ Ho. cbn in Ho. by rewrite lookup_empty in Ho.
Qed.

(** An object whose rows are new: the other objects are as they were. *)
Lemma fresh_object m a lm values rows vecs' nx' :
  ok m → alloc_rows values (vectors m) (next m) = (rows, vecs', nx') →
  let m' := {| objects := <[a := {| obj_LastMove := lm; obj_rows := rows |}]> (objects m);
               vectors := vecs'; next := nx' |} in
  ok m'
  ∧ load m' a = Some {| LastMove := lm; board := values |}
  ∧ ∀ a', a' ≠ a → load m' a' = load m a'.
Proof.
  intros [Hown Hdisj] Halloc m'.
  destruct (alloc_rows_spec _ _ _ _ _ _ Halloc) as (-> & -> & Hold & Hload).
  assert (Hnew : ∀ p, p ∈ seq (next m) (length values) → next m ≤ p)
    by (intros p Hp%elem_of_seq; lia).
  split; [split|split].
  - intros a0 o. unfold m'; cbn [objects next].
    destruct (decide (a0 = a)) as [->|Hne].
    + rewrite lookup_insert_eq. intros [= <-]; cbn [obj_rows].
      split; [apply NoDup_seq|]. intros p Hp%elem_of_seq. lia.
    + rewrite lookup_insert_ne by done. intros Ho.
      destruct (Hown a0 o Ho) as [Hnd Hlt]. split; [done|].
      intros p Hp. specialize (Hlt p Hp). lia.
  - intros a1 a2 o1 o2 p Hne. unfold m'; cbn [objects].
    destruct (decide (a1 = a)) as [->|Hne1].
    + rewrite lookup_insert_eq, lookup_insert_ne by done.
      intros [= <-] Ho2 Hp Hp2; cbn [obj_rows] in Hp.
      apply Hnew in Hp. destruct (Hown a2 o2 Ho2) as [_ Hlt].
      specialize (Hlt p Hp2). lia.
    + rewrite (lookup_insert_ne _ a a1) by done. intros Ho1.
      destruct (decide (a2 = a)) as [->|Hne2].
      * rewrite lookup_insert_eq. intros [= <-] Hp Hp2; cbn [obj_rows] in Hp2.
        apply Hnew in Hp2. destruct (Hown a1 o1 Ho1) as [_ Hlt].
        specialize (Hlt p Hp). lia.
      * rewrite lookup_insert_ne by done. intros Ho2. by apply (Hdisj a1 a2 o1 o2).
  - unfold load, m'; cbn [objects vectors]. rewrite lookup_insert_eq; cbn.
    by rewrite Hload.
  - intros a' Hne. unfold load, m'; cbn [objects vectors].
    rewrite lookup_insert_ne by done.
    destruct (objects m !! a') as [o|] eqn:Ho; [|done]. cbn.
    rewrite (load_rows_ext (vectors m)); [done|].
    intros p Hp. apply Hold. by apply (Hown a' o Ho).
Qed.

Lemma construct_spec m a :
  ok m →
  ok (construct a m) ∧ load (construct a m) a = Some new
  ∧ ∀ a', a' ≠ a → load (construct a m) a' = load m a'.
Proof.
  intros Hok. unfold construct.
  destruct (alloc_rows (board new) (vectors m) (next m)) as [[rows vecs] nx] eqn:Halloc.
  exact (fresh_object m a _ _ _ _ _ Hok Halloc).
Qed.

Lemma assign_at_spec m dst src bd dv :
  ok m → load m src = Some bd → load m dst = Some dv →
  ok (assign_at dst src m)
  ∧ load (assign_at dst src m) dst = Some (assign dv bd)
  ∧ ∀ a', a' ≠ dst → load (assign_at dst src m) a' = load m a'.
Proof.
  intros Hok Hsrc Hdst. unfold assign_at. rewrite Hsrc.
  destruct (load_Some _ _ _ Hdst) as (d & Hd & _ & Hlm). rewrite Hd.
  destruct (alloc_rows (board bd) (vectors m) (next m)) as [[rows vecs] nx] eqn:Halloc.
  unfold assign. rewrite Hlm.
  exact (fresh_object m dst _ _ _ _ _ Hok Halloc).
Qed.

(** [MakeMove] on the object at [a] is [Board.MakeMove] on its value, and
    no other object changes. *)
Lemma MakeMove_at_spec m a Move c bd :
  ok m → load m a = Some bd →
  (MakeMove_at a Move c m).1 = (MakeMove Move c bd).1
  ∧ ok (MakeMove_at a Move c m).2
  ∧ load (MakeMove_at a Move c m).2 a = Some (MakeMove Move c bd).2
  ∧ ∀ a', a' ≠ a → load (MakeMove_at a Move c m).2 a' = load m a'.
Proof.
  intros Hok Hload. unfold MakeMove_at. rewrite Hload.
  rewrite MakeMove_unfold, CanMakeMove_unfold; unfold GetColumnHeight; cbv zeta.
  destruct (decide (Width ≤ c)) as [|Hc]; [done|].
  destruct (decide (_ < Height)) as [Hlt|Hfull];
    [rewrite bool_decide_eq_true_2 by done|by rewrite bool_decide_eq_false_2].
  remember (GetColumnHeight_loop (board bd) c Height) as h eqn:Hh in *. clear Hh.
  unfold SetSpace_at.
  destruct (decide (Height ≤ h)); [lia|]. destruct (decide (Width ≤ c)); [lia|].
  destruct (load_Some _ _ _ Hload) as (o & Ho & Hrows & Hlm). rewrite Ho.
  cbn [fst snd]. destruct Hok as [Hown Hdisj]. destruct (Hown a o Ho) as [Hnd Hbound].
  split; [done|]. split; [split|split].
  - intros a0 o0; cbn [objects next]. destruct (decide (a0 = a)) as [->|Hne].
    + rewrite lookup_insert_eq. by intros [= <-].
    + rewrite lookup_insert_ne by done. apply Hown.
  - intros a1 a2 o1 o2 p Hne; cbn [objects].
    destruct (decide (a1 = a)) as [->|Hne1], (decide (a2 = a)) as [->|Hne2]; [done|..].
    + rewrite lookup_insert_eq, lookup_insert_ne by done.
      intros [= <-] Ho2; cbn [obj_rows]. by apply (Hdisj a a2 o o2).
    + rewrite lookup_insert_eq, lookup_insert_ne by done.
      intros Ho1 [= <-]; cbn [obj_rows]. by apply (Hdisj a1 a o1 o).
    + rewrite !lookup_insert_ne by done. by apply Hdisj.
  - unfold load; cbn [objects vectors]. rewrite lookup_insert_eq; cbn.
    destruct (obj_rows o !! h) as [p|] eqn:Hp.
    + by rewrite (load_rows_alter _ _ _ h p (board bd) Hnd Hp Hrows).
    + rewrite Hrows; cbn. rewrite list_alter_beyond; [done|].
      rewrite (load_rows_length _ _ _ Hrows). by apply lookup_ge_None.
  - intros a' Hne. unfold load; cbn [objects vectors].
    rewrite lookup_insert_ne by done.
    destruct (objects m !! a') as [o'|] eqn:Ho'; [|done]. cbn.
    destruct (obj_rows o !! h) as [p|] eqn:Hp; [|done].
    rewrite (load_rows_ext (vectors m)); [done|].
    intros q Hq. apply lookup_alter_ne. intros ->.
    apply (Hdisj a a' o o' q); [done..| |done]. by eapply list_elem_of_lookup_2.
Qed.

Lemma MakeMoves_at_spec moves : ∀ m a bd,
  ok m → load m a = Some bd →
  ok (MakeMoves_at a moves m)
  ∧ load (MakeMoves_at a moves m) a = Some (after_moves moves bd)
  ∧ ∀ a', a' ≠ a → load (MakeMoves_at a moves m) a' = load m a'.
Proof.
  induction moves as [|[Move c] moves IH]; intros m a bd Hok Hload; [done|].
  cbn [MakeMoves_at after_moves foldl fst snd].
  destruct (MakeMove_at_spec m a Move c bd Hok Hload) as (_ & Hok1 & Hload1 & Hframe1).
  destruct (IH _ a _ Hok1 Hload1) as (Hok2 & Hload2 & Hframe2).
  split; [done|]. split; [done|].
  intros a' Hne. by rewrite Hframe2, Hframe1.
Qed.

(** The trial board of [main], [Board boardWin; boardWin = b;], in memory:
    its value is [trialBoard] of the value of [b]. *)
Lemma trialBoard_object m a_b a_boardWin bd :
  ok m → a_b ≠ a_boardWin → load m a_b = Some bd →
  load (assign_at a_boardWin a_b (construct a_boardWin m)) a_boardWin
  = Some (trialBoard bd).
Proof.
  intros Hok Hne Hload.
  destruct (construct_spec m a_boardWin Hok) as (Hok1 & Hnew & Hframe).
  rewrite <- (Hframe a_b Hne) in Hload.
  by destruct (assign_at_spec _ a_boardWin a_b bd new Hok1 Hload Hnew) as (_ & -> & _).
Qed.

(** C7: after [copy = orig] through [operator=], the copy holds the grid
    of the original (and its own [LastMove]); every later [MakeMove] on the
    copy acts on the copy as [MakeMove] does on a board, and no sequence
    of them changes what [GetColumnHeight] and [GetSpace] return on the
    original. *)
Theorem copy_independence m orig copy bd dv moves :
  ok m → orig ≠ copy → load m orig = Some bd → load m copy = Some dv →
  let m1 := assign_at copy orig m in
  let m2 := MakeMoves_at copy moves m1 in
  load m1 copy = Some (assign dv bd)
  ∧ load m2 copy = Some (after_moves moves (assign dv bd))
  ∧ (∀ c, GetColumnHeight_at orig c m2 = Some (GetColumnHeight c bd))
  ∧ (∀ r c, GetSpace_at orig r c m2 = Some (GetSpace r c bd)).
Proof.
  intros Hok Hne Horig Hcopy m1 m2.
  destruct (assign_at_spec m copy orig bd dv Hok Horig Hcopy) as (Hok1 & Hload1 & Hframe1).
  destruct (MakeMoves_at_spec moves m1 copy _ Hok1 Hload1) as (_ & Hload2 & Hframe2).
  assert (Hkeep : load m2 orig = Some bd).
  { unfold m2. rewrite Hframe2 by done. unfold m1. by rewrite Hframe1. }
  split; [done|]. split; [done|]. split.
  - intros c. unfold GetColumnHeight_at. by rewrite Hkeep.
  - intros r c. unfold GetSpace_at. by rewrite Hkeep.
Qed.

Lemma copy_independence_witness :
  let m := (MakeMove_at 0 MoveType.Player1 3 (construct 1 (construct 0 empty))).2 in
  let m2 := MakeMoves_at 1 [(MoveType.Player2, 3); (MoveType.Player2, 0)]
              (assign_at 1 0 m) in
  GetColumnHeight_at 0 3 m2 = Some (inr 4)
  ∧ GetColumnHeight_at 1 3 m2 = Some (inr 3)
  ∧ GetSpace_at 0 5 0 m2 = Some (inr SpaceState.Empty)
  ∧ GetSpace_at 1 5 0 m2 = Some (inr SpaceState.Player2).
Proof.
  intros m m2.
  assert (Hok : ok m).
  { destruct (construct_spec empty 0 ok_empty) as (Hok0 & _).
    destruct (construct_spec _ 1 Hok0) as (Hok1 & _).
    exact (proj1 (proj2 (MakeMove_at_spec _ 0 MoveType.Player1 3 new Hok1 eq_refl))). }
  destruct (copy_independence m 0 1 (MakeMove MoveType.Player1 3 new).2 new
              [(MoveType.Player2, 3); (MoveType.Player2, 0)])
    as (_ & _ & Hheight & Hspace); [exact Hok|lia|reflexivity|reflexivity|].
  split; [exact (Hheight 3)|].
  split; [reflexivity|].
  split; [exact (Hspace 5 0)|reflexivity].
Defined.

End Copies.

(** * The automated player *)

Section Player2.
Import Board.

Lemma CanMakeMove_trialBoard i bd :
  CanMakeMove i (trialBoard bd) = CanMakeMove i bd.
Proof. by rewrite !CanMakeMove_unfold. Qed.

Lemma CheckWin_board player bd bd' :
  board bd = board bd' → CheckWin player bd = CheckWin player bd'.
Proof. unfold CheckWin. by intros ->. Qed.

Lemma MakeMove_trialBoard Move i bd :
  (MakeMove Move i (trialBoard bd)).1 = (MakeMove Move i bd).1
  ∧ board (MakeMove Move i (trialBoard bd)).2 = board (MakeMove Move i bd).2.
Proof.
  rewrite !MakeMove_unfold; cbv zeta; cbn [trialBoard assign board].
  repeat case_decide; done.
Qed.

(** A playable column takes the token. *)
Lemma MakeMove_playable Move i bd :
  CanMakeMove i bd = inr true → (MakeMove Move i bd).1 = inr tt.
Proof.
  rewrite CanMakeMove_unfold, MakeMove_unfold; cbv zeta.
  destruct (decide (Width ≤ i)); [done|].
  intros [= Hlt%bool_decide_eq_true]. by destruct (decide (_ < Height)).
Qed.

Lemma CanMakeMove_total i bd : i < Width → ∃ ok, CanMakeMove i bd = inr ok.
Proof.
  intros Hi. rewrite CanMakeMove_unfold.
  destruct (decide (Width ≤ i)); [lia|]. by eexists.
Qed.

Lemma wins_at_true Move i bd :
  wins_at Move i bd = true →
  CanMakeMove i bd = inr true
  ∧ CheckWin (ConvertMoveToSpaceState Move) (MakeMove Move i bd).2 = true.
Proof.
  unfold wins_at. destruct (CanMakeMove i bd) as [|[|]]; done.
Qed.

Lemma lookForWin_step i rest w :
  i < Width →
  main_lookForWin (i :: rest) w =
    if wins_at MoveType.Player2 i (b w)
    then (inl GameOverException, after_win i w)
    else main_lookForWin rest w.
Proof.
  intros Hi. cbn [main_lookForWin].
  unfold bind at 1, read; cbv beta iota.
  unfold bind at 1, on_local, call; cbv beta iota.
  rewrite CanMakeMove_trialBoard. unfold wins_at.
  destruct (CanMakeMove_total i (b w) Hi) as [[|] Hcan]; rewrite Hcan; cbn [fst];
    [|done].
  unfold bind at 1; cbv beta iota.
  destruct (MakeMove_trialBoard MoveType.Player2 i (b w)) as [Hres Hgrid].
  pose proof (MakeMove_playable MoveType.Player2 i (b w) Hcan) as Hok.
  destruct (MakeMove MoveType.Player2 i (trialBoard (b w))) as [r1 bd1] eqn:Htrial.
  cbn [fst snd] in Hres, Hgrid. rewrite Hok in Hres. subst r1. cbn [snd].
  rewrite (CheckWin_board _ bd1 (MakeMove MoveType.Player2 i (b w)).2 Hgrid).
  cbn [ConvertMoveToSpaceState].
  destruct (CheckWin SpaceState.Player2 _); [|done].
  unfold bind, on_b, PrintBoard, say, throw, after_win.
  destruct (MakeMove MoveType.Player2 i (b w)) as [r2 bd2]. cbn [fst snd] in *.
  subst r2. cbn [b cin cout]. by rewrite <- app_assoc.
Qed.

Lemma lookForWin_none cols w :
  Forall (λ i, i < Width ∧ wins_at MoveType.Player2 i (b w) = false) cols →
  main_lookForWin cols w = (inr tt, w).
Proof.
  induction 1 as [|i cols [Hi Hno] _ IH]; [done|].
  rewrite lookForWin_step by done. by rewrite Hno.
Qed.

Lemma lookForWin_first pre i post w :
  Forall (λ j, j < Width ∧ wins_at MoveType.Player2 j (b w) = false) pre →
  i < Width → wins_at MoveType.Player2 i (b w) = true →
  main_lookForWin (pre ++ i :: post) w = (inl GameOverException, after_win i w).
Proof.
  intros Hpre Hi Hwin.
  induction Hpre as [|j pre [Hj Hno] _ IH]; cbn [app].
  - rewrite lookForWin_step by done. by rewrite Hwin.
  - rewrite lookForWin_step by done. by rewrite Hno.
Qed.

Lemma lookForBlock_step i rest w :
  i < Width →
  main_lookForBlock (i :: rest) w =
    if wins_at MoveType.Player1 i (b w) then
      if CheckWin SpaceState.Player2 (MakeMove MoveType.Player2 i (b w)).2
      then (inl GameOverException, after_win i w)
      else (inr true, after_move i w)
    else main_lookForBlock rest w.
Proof.
  intros Hi. cbn [main_lookForBlock].
  unfold bind at 1, read; cbv beta iota.
  unfold bind at 1, on_local, call; cbv beta iota.
  rewrite CanMakeMove_trialBoard. unfold wins_at.
  destruct (CanMakeMove_total i (b w) Hi) as [[|] Hcan]; rewrite Hcan; cbn [fst];
    [|done].
  unfold bind at 1; cbv beta iota.
  destruct (MakeMove_trialBoard MoveType.Player1 i (b w)) as [Hres Hgrid].
  pose proof (MakeMove_playable MoveType.Player1 i (b w) Hcan) as Hok.
  destruct (MakeMove MoveType.Player1 i (trialBoard (b w))) as [r1 bd1] eqn:Htrial.
  cbn [fst snd] in Hres, Hgrid. rewrite Hok in Hres. subst r1. cbn [snd].
  rewrite (CheckWin_board _ bd1 (MakeMove MoveType.Player1 i (b w)).2 Hgrid).
  cbn [ConvertMoveToSpaceState].
  destruct (CheckWin SpaceState.Player1 _); [|done].
  pose proof (MakeMove_playable MoveType.Player2 i (b w) Hcan) as Hok2.
  unfold bind, on_b, read, PrintBoard, say, throw, ret, after_win, after_move.
  destruct (MakeMove MoveType.Player2 i (b w)) as [r2 bd2]. cbn [fst snd] in *.
  subst r2. cbn [b cin cout].
  destruct (CheckWin SpaceState.Player2 bd2); [|done].
  by rewrite <- app_assoc.
Qed.

Lemma lookForBlock_first pre i post w :
  Forall (λ j, j < Width ∧ wins_at MoveType.Player1 j (b w) = false) pre →
  i < Width → wins_at MoveType.Player1 i (b w) = true →
  main_lookForBlock (pre ++ i :: post) w =
    if CheckWin SpaceState.Player2 (MakeMove MoveType.Player2 i (b w)).2
    then (inl GameOverException, after_win i w)
    else (inr true, after_move i w).
Proof.
  intros Hpre Hi Hwin.
  induction Hpre as [|j pre [Hj Hno] _ IH]; cbn [app].
  - rewrite lookForBlock_step by done. by rewrite Hwin.
  - rewrite lookForBlock_step by done. by rewrite Hno.
Qed.

Lemma range_split lo i hi :
  lo ≤ i → i < hi → range lo hi = range lo i ++ i :: range (S i) hi.
Proof.
  intros Hlo Hhi. unfold range.
  replace (hi - lo) with ((i - lo) + S (hi - S i)) by lia.
  rewrite seq_app. cbn [seq]. by replace (lo + (i - lo)) with i by lia.
Qed.

Lemma Forall_range lo hi (P : nat → Prop) :
  (∀ j, lo ≤ j → j < hi → P j) → Forall P (range lo hi).
Proof.
  intros HP. apply Forall_forall. intros j Hj%list_elem_of_In%in_seq.
  apply HP; lia.
Qed.

(** *** The random probe *)

Lemma next_autoMove_range a :
  1 ≤ a ≤ Width → 1 ≤ next_autoMove a ≤ Width.
Proof.
  unfold next_autoMove; cbv zeta. intros Ha. case_decide; lia.
Qed.

Lemma probe_within fuel : ∀ a k w,
  k < fuel → 1 ≤ a ≤ Width →
  CanMakeMove (Nat.iter k next_autoMove a - 1) (b w) = inr true →
  ∃ a', main_probe fuel a w = (inr (Some a'), w)
        ∧ 1 ≤ a' ≤ Width
        ∧ CanMakeMove (a' - 1) (b w) = inr true.
Proof.
  induction fuel as [|fuel IH]; intros a k w Hk Ha Hcan; [lia|].
  cbn [main_probe]. unfold bind at 1, on_b, call.
  destruct (CanMakeMove_total (a - 1) (b w)) as [[|] Hthis]; [lia| |].
  - rewrite Hthis; cbn [negb]. exists a. unfold ret.
    by destruct w.
  - rewrite Hthis; cbn [negb].
    destruct k as [|k];
      [change (Nat.iter 0 next_autoMove a) with a in Hcan; congruence|].
    rewrite Nat.iter_succ_r in Hcan.
    destruct (IH (next_autoMove a) k {| b := b w; cin := cin w; cout := cout w |})
      as (a' & Hrun & Ha' & Hcan'); [lia|by apply next_autoMove_range|done|].
    exists a'. destruct w; done.
Qed.

Lemma next_autoMove_reaches a c :
  1 ≤ a ≤ Width → c < Width →
  ∃ k, k < Width ∧ Nat.iter k next_autoMove a = S c.
Proof.
  unfold Width. intros Ha Hc.
  assert (Hcases : a = 1 ∨ a = 2 ∨ a = 3 ∨ a = 4 ∨ a = 5 ∨ a = 6 ∨ a = 7) by lia.
  assert (Hcols : c = 0 ∨ c = 1 ∨ c = 2 ∨ c = 3 ∨ c = 4 ∨ c = 5 ∨ c = 6) by lia.
  clear Ha Hc.
  repeat (destruct Hcases as [->|Hcases]); try subst a;
    repeat (destruct Hcols as [->|Hcols]); try subst c;
    first [ exists 0; split; [lia|reflexivity]
          | exists 1; split; [lia|reflexivity]
          | exists 2; split; [lia|reflexivity]
          | exists 3; split; [lia|reflexivity]
          | exists 4; split; [lia|reflexivity]
          | exists 5; split; [lia|reflexivity]
          | exists 6; split; [lia|reflexivity] ].
Qed.

(** The probe ends, on a playable column, whenever the board has one:
    [Width] rounds are all the loop can need. *)
Lemma probe_finds rnd w c :
  c < Width → CanMakeMove c (b w) = inr true →
  ∃ a', main_probe Width (1 + rnd mod Width) w = (inr (Some a'), w)
        ∧ 1 ≤ a' ≤ Width
        ∧ CanMakeMove (a' - 1) (b w) = inr true.
Proof.
  intros Hc Hcan.
  assert (Ha : 1 ≤ 1 + rnd mod Width ≤ Width).
  { pose proof (Nat.mod_upper_bound rnd Width). unfold Width in *. lia. }
  destruct (next_autoMove_reaches _ c Ha Hc) as (k & Hk & Hiter).
  apply (probe_within Width _ k); [done|done|].
  rewrite Hiter. by replace (S c - 1) with c by lia.
Qed.

(** C5: when some column is playable and wins for Player2 at once,
    [i0] being the first such column, the automated player's turn puts
    Player2's token into column [i0] of the board and ends the game: the
    search for a block and the random choice are not reached, whatever
    [rand()] returned and whatever the other columns hold. *)
Theorem win_now_priority rnd w i0 :
  i0 < Width →
  wins_at MoveType.Player2 i0 (b w) = true →
  (∀ j, j < i0 → wins_at MoveType.Player2 j (b w) = false) →
  ∃ w', main_player2 rnd w = (inl GameOverException, w')
        ∧ MakeMove MoveType.Player2 i0 (b w) = (inr tt, b w')
        ∧ CheckWin SpaceState.Player2 (b w') = true.
Proof.
  intros Hi0 Hwin Hfirst.
  destruct (wins_at_true _ _ _ Hwin) as [Hcan Hcheck].
  pose proof (MakeMove_playable MoveType.Player2 i0 (b w) Hcan) as Hok.
  unfold main_player2. unfold bind at 1, PrintBoard, say; cbv beta iota.
  set (w1 := {| b := b w; cin := cin w; cout := _ |}).
  unfold bind at 1. rewrite (range_split 0 i0 Width) by lia.
  rewrite (lookForWin_first _ i0 _ w1); [|apply Forall_range; intros j _ Hj|done|done].
  - exists (after_win i0 w1). split; [done|].
    unfold after_win, w1; cbn [b].
    split; [|exact Hcheck].
    destruct (MakeMove MoveType.Player2 i0 (b w)); cbn [fst snd] in *.
    by subst.
  - split; [lia|]. by apply Hfirst.
Qed.

Lemma win_now_priority_witness :
  let bd := (MakeMoves [(MoveType.Player2, 3); (MoveType.Player1, 0);
                        (MoveType.Player2, 3); (MoveType.Player1, 0);
                        (MoveType.Player2, 3); (MoveType.Player1, 0)] new).2 in
  let w := {| b := bd; cin := []; cout := [] |} in
  ∃ w', main_player2 0 w = (inl GameOverException, w')
        ∧ MakeMove MoveType.Player2 3 (b w) = (inr tt, b w')
        ∧ CheckWin SpaceState.Player2 (b w') = true.
Proof.
  intros bd w. apply (win_now_priority 0 w 3).
  - unfold Width; lia.
  - reflexivity.
  - intros j Hj.
    destruct j as [|[|[|j]]]; [reflexivity..|lia].
Defined.

(** C6: when no playable column wins for Player2 at once and some playable
    column would complete a four for Player1, [i0] being the first such
    column, the automated player's turn consists of one move: Player2's
    token goes into column [i0].  No later column is tried and no random
    move follows. *)
Theorem block_priority rnd w i0 :
  (∀ j, j < Width → wins_at MoveType.Player2 j (b w) = false) →
  i0 < Width →
  wins_at MoveType.Player1 i0 (b w) = true →
  (∀ j, j < i0 → wins_at MoveType.Player1 j (b w) = false) →
  ∃ w', main_player2 rnd w = (inr Continue, w')
        ∧ MakeMove MoveType.Player2 i0 (b w) = (inr tt, b w').
Proof.
  intros Hnowin Hi0 Hthreat Hfirst.
  destruct (wins_at_true _ _ _ Hthreat) as [Hcan _].
  pose proof (MakeMove_playable MoveType.Player2 i0 (b w) Hcan) as Hok.
  assert (Hcheck : CheckWin SpaceState.Player2 (MakeMove MoveType.Player2 i0 (b w)).2 = false).
  { specialize (Hnowin i0 Hi0). unfold wins_at in Hnowin. by rewrite Hcan in Hnowin. }
  unfold main_player2. unfold bind at 1, PrintBoard, say; cbv beta iota.
  set (w1 := {| b := b w; cin := cin w; cout := _ |}).
  unfold bind at 1. rewrite (lookForWin_none _ w1);
    [|apply Forall_range; intros j _ Hj; split; [lia|by apply Hnowin]].
  cbv beta iota.
  unfold bind at 1. rewrite (range_split 0 i0 Width) by lia.
  rewrite (lookForBlock_first _ i0 _ w1);
    [|apply Forall_range; intros j _ Hj; split; [lia|by apply Hfirst]|done|done].
  cbn [b w1]. rewrite Hcheck. cbv beta iota. cbn [negb].
  unfold bind, ret, read. cbn [after_move b w1 ConvertMoveToSpaceState].
  rewrite Hcheck.
  eexists; split; [done|]. unfold after_move, w1; cbn [b].
  destruct (MakeMove MoveType.Player2 i0 (b w)); cbn [fst snd] in *. by subst.
Qed.

Lemma block_priority_witness :
  let bd := (MakeMoves [(MoveType.Player1, 2); (MoveType.Player2, 6);
                        (MoveType.Player1, 3); (MoveType.Player2, 6);
                        (MoveType.Player1, 4)] new).2 in
  let w := {| b := bd; cin := []; cout := [] |} in
  ∃ w', main_player2 0 w = (inr Continue, w')
        ∧ MakeMove MoveType.Player2 1 (b w) = (inr tt, b w').
Proof.
  intros bd w. apply (block_priority 0 w 1).
  - intros j Hj. unfold Width in Hj.
    destruct j as [|[|[|[|[|[|[|j]]]]]]]; [reflexivity..|lia].
  - unfold Width; lia.
  - reflexivity.
  - intros j Hj. destruct j as [|j]; [reflexivity|lia].
Defined.

End Player2.

(** * Reading a column *)

Section Input.
Import Board.

Lemma length_skipws s : length (skipws s) ≤ length s.
Proof.
  induction s as [|c s IH]; cbn [skipws length]; [done|].
  destruct (isspace c); cbn [length]; lia.
Qed.

Lemma length_read_digits s ds rest :
  read_digits s = (ds, rest) → length ds + length rest = length s.
Proof.
  revert ds rest. induction s as [|c s IH]; intros ds rest; cbn [read_digits].
  - by intros [= <- <-].
  - destruct (isdigit c).
    + destruct (read_digits s) as [ds' rest'].
      intros [= <- <-]. cbn [length]. specialize (IH ds' rest' eq_refl). lia.
    + intros [= <- <-]. done.
Qed.

Lemma length_ignore_line s : s ≠ [] → length (ignore_line s) < length s.
Proof.
  intros Hs. induction s as [|c s IH]; [done|]. cbn [ignore_line length].
  case_bool_decide; [lia|].
  destruct s as [|c' s]; [cbn; lia|]. specialize (IH ltac:(done)). lia.
Qed.

(** The read never makes the input longer; [eofbit] is set exactly when
    nothing is left; a read that does not fail has taken a digit. *)
Lemma extract_unsigned_spec s got rest :
  extract_unsigned s = (got, rest) →
  length rest ≤ length s
  ∧ (eofbit got = true ↔ rest = [])
  ∧ (failbit got = false → length rest < length s).
Proof.
  unfold extract_unsigned. pose proof (length_skipws s) as Hskip.
  destruct (skipws s) as [|c s'].
  { intros [= <- <-]. cbn [eofbit failbit]. split; [cbn; lia|]. done. }
  cbn [length] in Hskip.
  set (signed := _ || _).
  destruct (read_digits (if signed then s' else c :: s')) as [ds rest'] eqn:Hread.
  apply length_read_digits in Hread.
  assert (Hin : length ds + length rest' ≤ S (length s')).
  { rewrite Hread. destruct signed; cbn [length]; lia. }
  destruct ds as [|d ds].
  - intros [= <- <-]. cbn [eofbit failbit]. split; [cbn [length] in Hin; lia|].
    split; [apply bool_decide_eq_true|done].
  - cbn [length] in Hin. destruct (UINT_MAX <? decimal (d :: ds))%N;
      intros [= <- <-]; cbn [eofbit failbit];
      (split; [lia|]); (split; [apply bool_decide_eq_true|]); [done|lia].
Qed.

Lemma GetRequestedColumn_cases w :
  ∃ Column w',
    GetRequestedColumn w = (inr Column, w')
    ∧ b w' = b w
    ∧ (cout w' = cout w ++ [EvPrompt] ∨ cout w' = cout w ++ [EvPrompt; EvInvalidInput])
    ∧ (cin w = [] → cin w' = [])
    ∧ (cin w ≠ [] → length (cin w') < length (cin w))
    ∧ (∀ c, Column = Some c → c < Width).
Proof.
  unfold GetRequestedColumn, bind, say; cbn [b cin cout].
  destruct (extract_unsigned (cin w)) as [got rest] eqn:Hex.
  destruct (extract_unsigned_spec _ _ _ Hex) as (Hle & Heof & Hgood).
  destruct (eofbit got) eqn:Hbit.
  { rewrite (proj1 Heof eq_refl). eexists _, _. split; [done|]; cbn [b cin cout].
    split; [done|]. split; [by left|]. split; [done|]. split; [|done].
    intros Hne. destruct (cin w); [done|cbn; lia]. }
  assert (Hrest : rest ≠ []) by (intros Hnil; by pose proof (proj2 Heof Hnil)).
  destruct (failbit got || _ || _) eqn:Hbad.
  - eexists _, _. split; [done|]; cbn [b cin cout].
    split; [done|]. split; [right; by rewrite <- app_assoc|].
    pose proof (length_ignore_line rest Hrest) as Hlt.
    split; [|split; [intros _; lia|done]].
    intros Hnil. rewrite Hnil in Hle. destruct rest; [done|cbn in Hle; lia].
  - apply orb_false_iff in Hbad as [[Hfail Hlow]%orb_false_iff Hhigh].
    eexists _, _. split; [done|]; cbn [b cin cout].
    split; [done|]. split; [by left|]. specialize (Hgood Hfail).
    split; [intros Hnil; rewrite Hnil in Hgood; cbn in Hgood; lia|].
    split; [done|]. intros c [= <-].
    apply N.ltb_ge in Hhigh. unfold Width in *. lia.
Qed.

End Input.

(** * The input loop *)

Section InputLoop.
Import Board.

(** [length cin] rounds are all the input loop can use: when the model's
    loop runs out of rounds the input is exhausted, which is where the
    source prompts without end. *)
Lemma inputLoop_Spin fuel currentPlayer : ∀ w w',
  length (cin w) ≤ fuel →
  main_inputLoop fuel currentPlayer w = (inr Spin, w') →
  cin w' = [].
Proof.
  induction fuel as [|fuel IH]; intros w w' Hlen Hrun.
  - injection Hrun as <-. destruct (cin w); [done|cbn [length] in Hlen; lia].
  - cbn [main_inputLoop] in Hrun. unfold bind at 1 in Hrun.
    destruct (GetRequestedColumn_cases w)
      as (Column & w1 & Hread & _ & _ & Hnil & Hlt & _).
    rewrite Hread in Hrun.
    assert (Hlen1 : length (cin w1) ≤ fuel).
    { destruct (decide (cin w = [])) as [Hempty|Hmore].
      - rewrite (Hnil Hempty). cbn [length]. lia.
      - specialize (Hlt Hmore). lia. }
    destruct Column as [c|]; [|by apply IH in Hrun].
    unfold try_catch, bind, on_b, ret in Hrun.
    destruct (MakeMove currentPlayer c (b w1)) as [[e|[]] bd']; [|done].
    unfold say in Hrun. apply IH in Hrun; [done|by cbn [cin]].
Qed.

End InputLoop.

(** * The game-over handler *)

Section GameOver.
Import Board.

Lemma enb_ret {A} (a : A) : emits_no_beep (ret a).
Proof. intros w. exists []. rewrite app_nil_r; split; [done|apply not_elem_of_nil]. Qed.

Lemma enb_throw {A} e : emits_no_beep (throw (A := A) e).
Proof. intros w. exists []. rewrite app_nil_r; split; [done|apply not_elem_of_nil]. Qed.

Lemma enb_read {A} (f : World → A) : emits_no_beep (read f).
Proof. intros w. exists []. rewrite app_nil_r; split; [done|apply not_elem_of_nil]. Qed.

Lemma enb_say e : e ≠ EvBeep → emits_no_beep (say e).
Proof.
  intros He w. exists [e]. split; [done|].
  rewrite list_elem_of_singleton. congruence.
Qed.

Lemma enb_PrintBoard : emits_no_beep PrintBoard.
Proof. intros w. by apply enb_say. Qed.

Lemma enb_on_b {A} (m : M Board.t A) : emits_no_beep (on_b m).
Proof.
  intros w. exists []. unfold on_b. destruct (m (b w)).
  rewrite app_nil_r; split; [done|apply not_elem_of_nil].
Qed.

Lemma enb_on_local {A} obj (m : M Board.t A) : emits_no_beep (on_local obj m).
Proof.
  intros w. exists []. unfold on_local. rewrite app_nil_r.
  split; [|apply not_elem_of_nil]. by destruct (m obj) as [[e|a] obj'].
Qed.

Lemma enb_bind {A B} (m : M World A) (k : A → M World B) :
  emits_no_beep m → (∀ a, emits_no_beep (k a)) → emits_no_beep (bind m k).
Proof.
  intros Hm Hk w. unfold bind.
  destruct (Hm w) as (new1 & Hout1 & Hno1).
  destruct (m w) as [[e|a] w1]; cbn [snd] in *; [by exists new1|].
  destruct (Hk a w1) as (new2 & Hout2 & Hno2).
  exists (new1 ++ new2). rewrite Hout2, Hout1, app_assoc. split; [done|].
  rewrite elem_of_app. tauto.
Qed.

Lemma enb_try_catch {A} (m : M World A) (handler : exn → M World A) :
  emits_no_beep m → (∀ e, emits_no_beep (handler e)) →
  emits_no_beep (try_catch m handler).
Proof.
  intros Hm Hh w. unfold try_catch.
  destruct (Hm w) as (new1 & Hout1 & Hno1).
  destruct (m w) as [[e|a] w1]; cbn [snd] in *; [|by exists new1].
  destruct (Hh e w1) as (new2 & Hout2 & Hno2).
  exists (new1 ++ new2). rewrite Hout2, Hout1, app_assoc. split; [done|].
  rewrite elem_of_app. tauto.
Qed.

Ltac enb_step :=
  first
    [ assumption
    | apply enb_ret | apply enb_throw | apply enb_read
    | apply enb_PrintBoard | apply enb_on_b | apply enb_on_local
    | apply enb_say; discriminate
    | apply enb_bind; [|intros ?]
    | apply enb_try_catch; [|intros ?]
    | match goal with
      | |- emits_no_beep (if ?c then _ else _) => destruct c
      | |- emits_no_beep (match ?x with _ => _ end) => destruct x
      end ].

Lemma enb_GetRequestedColumn : emits_no_beep GetRequestedColumn.
Proof.
  intros w.
  destruct (GetRequestedColumn_cases w) as (Column & w1 & Hread & _ & Hout & _).
  rewrite Hread; cbn [snd].
  destruct Hout as [-> | ->]; eexists; (split; [done|]);
    intros Hin; repeat (apply elem_of_cons in Hin as [Hin|Hin]; [done|]);
    by apply elem_of_nil in Hin.
Qed.

Lemma enb_inputLoop fuel currentPlayer :
  emits_no_beep (main_inputLoop fuel currentPlayer).
Proof.
  induction fuel as [|fuel IH]; cbn [main_inputLoop]; [apply enb_ret|].
  apply enb_bind; [apply enb_GetRequestedColumn|intros Column].
  repeat enb_step.
Qed.

Lemma enb_isDraw cols : emits_no_beep (main_isDraw cols).
Proof. induction cols as [|c cols IH]; cbn [main_isDraw]; repeat enb_step. Qed.

Lemma enb_lookForWin cols : emits_no_beep (main_lookForWin cols).
Proof. induction cols as [|i cols IH]; cbn [main_lookForWin]; repeat enb_step. Qed.

Lemma enb_lookForBlock cols : emits_no_beep (main_lookForBlock cols).
Proof. induction cols as [|i cols IH]; cbn [main_lookForBlock]; repeat enb_step. Qed.

Lemma enb_probe fuel autoMove : emits_no_beep (main_probe fuel autoMove).
Proof.
  revert autoMove. induction fuel as [|fuel IH]; intros autoMove;
    cbn [main_probe]; [apply enb_ret|].
  apply enb_bind; [apply enb_on_b|intros can].
  destruct (negb can); [apply IH|apply enb_ret].
Qed.

Lemma enb_player2 rnd : emits_no_beep (main_player2 rnd).
Proof.
  unfold main_player2.
  apply enb_bind; [apply enb_PrintBoard|intros _].
  apply enb_bind; [apply enb_lookForWin|intros _].
  apply enb_bind; [apply enb_lookForBlock|intros bFoundBlock].
  apply enb_bind.
  - destruct (negb bFoundBlock); [|apply enb_ret].
    apply enb_bind; [apply enb_probe|intros found]. repeat enb_step.
  - intros random. repeat enb_step.
Qed.

Lemma enb_try rnd : emits_no_beep (main_try rnd).
Proof.
  unfold main_try.
  apply enb_bind; [apply enb_PrintBoard|intros _].
  apply enb_bind; [apply enb_read|intros fuel].
  apply enb_bind; [apply enb_inputLoop|intros moved].
  destruct moved; [|apply enb_ret].
  apply enb_bind; [apply enb_read|intros win].
  destruct win; [repeat enb_step|].
  apply enb_bind; [apply enb_isDraw|intros isDraw].
  destruct isDraw; [repeat enb_step|apply enb_player2].
Qed.

(** The handler tests [CheckWin] on the board it has just emptied. *)
Lemma gameOver_unfold w :
  main_gameOver w =
    (inr tt, {| b := assign (b w) new; cin := extract_char (cin w); cout := cout w |}).
Proof.
  unfold main_gameOver, bind, on_b, read, ret; cbn [b cin cout].
  by rewrite (CheckWin_board _ (assign (b w) new) new eq_refl).
Qed.

Lemma enb_gameOver : emits_no_beep main_gameOver.
Proof.
  intros w. rewrite gameOver_unfold. exists [].
  rewrite app_nil_r; split; [done|apply not_elem_of_nil].
Qed.

Lemma enb_iteration rnd : emits_no_beep (main_iteration rnd).
Proof.
  unfold main_iteration. apply enb_try_catch; [apply enb_try|intros e].
  destruct e; [|repeat enb_step].
  apply enb_bind; [apply enb_gameOver|intros _; apply enb_ret].
Qed.

(** C9 (as amended): a round of the game that ends with Player1's win (the
    automated player's loss) or with a draw writes no beep. *)
Theorem no_beep_after_loss_or_draw rnd w new :
  cout (main_iteration rnd w).2 = cout w ++ new →
  EvText "Player 1 wins!" ∈ new ∨ EvText "It's a draw!" ∈ new →
  EvBeep ∉ new.
Proof.
  intros Hout _.
  destruct (enb_iteration rnd w) as (new' & Hout' & Hno).
  rewrite Hout in Hout'. by apply app_inv_head in Hout' as ->.
Qed.

Lemma no_beep_after_loss_or_draw_witness :
  let w := main_loop [6; 6; 6]
             (main_start (String.list_ascii_of_string "3 4 5 6 y")) in
  let new := drop (length (cout w)) (cout (main_iteration 6 w).2) in
  EvText "Player 1 wins!" ∈ new ∧ EvBeep ∉ new.
Proof.
  intros w new.
  assert (Hwin : EvText "Player 1 wins!" ∈ new).
  { apply (bool_decide_unpack _). vm_compute. exact I. }
  split; [exact Hwin|].
  apply (no_beep_after_loss_or_draw 6 w new); [vm_compute; reflexivity|].
  left; exact Hwin.
Defined.

(** C9 (counterexample to the claim as stated): in the sample game Player1
    completes four in the bottom row, the win is announced, the handler
    runs (the grid is empty again and the key press is consumed), and the
    output holds no beep. *)
Lemma no_beep_when_Player2_loses :
  EvText "Player 1 wins!" ∈ cout sample_game
  ∧ board (b sample_game) = board new
  ∧ cin sample_game = []
  ∧ EvBeep ∉ cout sample_game.
Proof.
  split; [apply (bool_decide_unpack _); vm_compute; exact I|].
  split; [vm_compute; reflexivity|].
  split; [vm_compute; reflexivity|].
  apply (bool_decide_unpack _). vm_compute. exact I.
Qed.

(** C10: [operator=] replaces the grid of its destination and leaves the
    destination's [LastMove] alone.  So the reset [b = newBoard] of the
    game-over handler empties the grid and keeps the finished game's
    [LastMove], and a trial board [boardWin = b] has the grid of [b] with
    the [LastMove] of a fresh board, which is not initialized. *)
Theorem assign_keeps_LastMove :
  (∀ this original,
     LastMove (assign this original) = LastMove this
     ∧ board (assign this original) = board original)
  ∧ (∀ w,
       LastMove (b (main_gameOver w).2) = LastMove (b w)
       ∧ board (b (main_gameOver w).2) = board new)
  ∧ (∀ bd,
       LastMove (trialBoard bd) = {| x := 0; y := 0; isInitialized := false |}
       ∧ board (trialBoard bd) = board bd).
Proof.
  split; [done|]. split; [|done].
  intros w. by rewrite gameOver_unfold.
Qed.

(** After the sample game the grid is empty and [LastMove] still is the
    winning move of Player1, row 5 of column 5; the next [PrintBoard]
    highlights that Empty cell. *)
Example LastMove_survives_the_reset :
  board (b sample_game) = board new
  ∧ LastMove (b sample_game) = {| x := 5; y := 5; isInitialized := true |}
  ∧ IsLastMove 5 5 (b sample_game) = true.
Proof. vm_compute. done. Qed.

End GameOver.

(** * More on the Board class *)

Section BoardMoves.
Import Board.

Implicit Types (g : list (list SpaceState.t)) (bd : Board.t).

(** The scan reads the grid only in column [c]. *)
Lemma GetColumnHeight_loop_column g g' c n :
  (∀ r, cell g r c = cell g' r c) →
  GetColumnHeight_loop g c n = GetColumnHeight_loop g' c n.
Proof.
  intros Hsame. induction n as [|n IH]; cbn [GetColumnHeight_loop]; [done|].
  by rewrite Hsame, IH.
Qed.

(** The cell a successful [MakeMove] writes was Empty. *)
Lemma MakeMove_success Move c bd bd' :
  MakeMove Move c bd = (inr tt, bd') →
  c < Width
  ∧ ∃ h, h < Height
         ∧ cell (board bd) h c = SpaceState.Empty
         ∧ bd' = {| LastMove := {| x := c; y := h; isInitialized := true |};
                    board := alter (λ cs, <[c := ConvertMoveToSpaceState Move]> cs) h
                               (board bd) |}.
Proof.
  rewrite MakeMove_unfold; cbv zeta.
  destruct (decide (Width ≤ c)); [done|].
  destruct (decide (_ < Height)) as [Hlt|]; [|done].
  intros [= <-]. split; [lia|].
  exists (GetColumnHeight_loop (board bd) c Height). split; [done|]. split; [|done].
  destruct (GetColumnHeight_loop_spec (board bd) c Height) as
    [(_ & Hempty & _)|[Heq _]]; [done|done|lia].
Qed.

(** X1: [MakeMove] throws "Column out of range" exactly when the column
    index is [Width] or more, and "Cannot make move" exactly when the
    column is on the board and has no Empty cell; it throws nothing else,
    and a [MakeMove] that throws leaves the board as it was. *)
Theorem MakeMove_failure Move c bd :
  (Width ≤ c ↔
     MakeMove Move c bd = (inl (std_exception "Column out of range"), bd))
  ∧ (c < Width ∧ (∀ r, r < Height → GetSpace r c bd ≠ inr SpaceState.Empty) ↔
       MakeMove Move c bd = (inl (std_exception "Cannot make move"), bd))
  ∧ (∀ e bd', MakeMove Move c bd = (inl e, bd') →
       bd' = bd
       ∧ (e = std_exception "Column out of range"
          ∨ e = std_exception "Cannot make move")).
Proof.
  rewrite MakeMove_unfold; cbv zeta.
  destruct (decide (Width ≤ c)) as [Hc|Hc]; [|destruct (decide (_ < Height)) as [Hlt|Hfull]].
  - split; [done|]. split.
    + split; [lia|discriminate].
    + intros e bd' [= <- <-]. split; [done|by left].
  - split; [split; [lia|discriminate]|]. split; [|discriminate].
    split; [|discriminate]. intros [_ Hall]. exfalso.
    destruct (GetColumnHeight_loop_spec (board bd) c Height) as
      [(_ & Hempty & _)|[Heq _]]; [done| |lia].
    apply (Hall (GetColumnHeight_loop (board bd) c Height) Hlt).
    rewrite GetSpace_Empty_iff by (done || lia). done.
  - split; [split; [lia|discriminate]|]. split.
    + split; [done|]. intros _. split; [lia|].
      intros r Hr. rewrite GetSpace_Empty_iff by (done || lia).
      destruct (GetColumnHeight_loop_spec (board bd) c Height) as
        [(Hlt & _)|[_ Hall]]; [done|done|by apply Hall].
    + intros e bd' [= <- <-]. split; [done|by right].
Qed.

Lemma MakeMove_failure_witness :
  MakeMove MoveType.Player1 7 new = (inl (std_exception "Column out of range"), new)
  ∧ ¬ MakeMove MoveType.Player1 3 new
      = (inl (std_exception "Cannot make move"), new)
  ∧ MakeMove MoveType.Player2 0 (MakeMoves (replicate 6 (MoveType.Player1, 0)) new).2
    = (inl (std_exception "Cannot make move"),
       (MakeMoves (replicate 6 (MoveType.Player1, 0)) new).2).
Proof.
  split; [|split].
  - apply (proj1 (MakeMove_failure MoveType.Player1 7 new)). unfold Width; lia.
  - intros Hthrow.
    apply (proj1 (proj2 (MakeMove_failure MoveType.Player1 3 new))) in Hthrow
      as [_ Hall].
    apply (Hall 0); [unfold Height; lia|reflexivity].
  - apply (proj1 (proj2 (MakeMove_failure MoveType.Player2 0 _))).
    split; [unfold Width; lia|].
    intros r Hr. unfold Height in Hr.
    do 6 (destruct r as [|r]; [intros Hcell; vm_compute in Hcell; discriminate Hcell|]).
    lia.
Defined.

(** *** Counting tokens *)

Lemma NoDup_squares : NoDup squares.
Proof. apply (bool_decide_unpack _). vm_compute. exact I. Qed.

Lemma length_squares : length squares = Height * Width.
Proof. reflexivity. Qed.

Lemma elem_of_squares_inv r c : (r, c) ∈ squares → r < Height ∧ c < Width.
Proof.
  intros Hin%list_elem_of_In%in_flat_map. destruct Hin as (r' & Hr%in_seq & Hin).
  apply in_map_iff in Hin as (c' & [= <- <-] & Hc%in_seq). lia.
Qed.

(** One more element satisfies the predicate: the filter grows by one. *)
Lemma length_filter_one_more {A} (P Q : A → Prop)
    `{!∀ a, Decision (P a), !∀ a, Decision (Q a)} (l : list A) a :
  NoDup l → a ∈ l → ¬ P a → Q a → (∀ a', a' ≠ a → P a' ↔ Q a') →
  length (filter Q l) = S (length (filter P l)).
Proof.
  intros Hnd Hin HP HQ Hrest.
  induction Hnd as [|a0 l Hnotin Hnd IH]; [by apply elem_of_nil in Hin|].
  rewrite !filter_cons.
  apply elem_of_cons in Hin as [->|Hin].
  - destruct (decide (P a0)); [done|]. destruct (decide (Q a0)); [|done].
    cbn [length]. f_equal. f_equal.
    apply filter_ext_elem. intros a' Ha'. symmetry. apply Hrest. by intros ->.
  - assert (Hne : a0 ≠ a) by (by intros ->).
    specialize (IH Hin). pose proof (Hrest a0 Hne) as Ha0.
    destruct (decide (P a0)), (decide (Q a0)); cbn [length]; try tauto; lia.
Qed.

Lemma MakeMove_token_count Move c bd bd' :
  wf bd → MakeMove Move c bd = (inr tt, bd') →
  token_count bd' = S (token_count bd).
Proof.
  intros Hwf Hmove.
  destruct (MakeMove_success _ _ _ _ Hmove) as (Hc & h & Hh & Hempty & ->).
  destruct (wf_lookup bd h Hwf Hh) as (cells & Hcells & Hlen).
  unfold token_count; cbn [board].
  apply (length_filter_one_more _ _ squares (h, c)).
  - apply NoDup_squares.
  - by apply elem_of_squares.
  - cbn [fst snd]. by intros Hocc.
  - cbn [fst snd]. erewrite cell_alter_eq; [apply Convert_not_Empty|done|lia].
  - intros [i j] Hne; cbn [fst snd]. by rewrite cell_alter_ne.
Qed.

Lemma MakeMoves_token_count moves : ∀ bd bd',
  wf bd → MakeMoves moves bd = (inr tt, bd') →
  wf bd' ∧ token_count bd' = token_count bd + length moves.
Proof.
  induction moves as [|[Move c] moves IH]; intros bd bd' Hwf Hrun.
  - injection Hrun as <-. split; [done|]. cbn [length]. lia.
  - cbn [MakeMoves] in Hrun. unfold bind in Hrun.
    destruct (MakeMove Move c bd) as [[e|[]] bd1] eqn:Hmove; [done|].
    destruct (IH bd1 bd' (MakeMove_wf _ _ _ _ _ Hwf Hmove) Hrun) as [Hwf' Hcount].
    split; [done|]. rewrite Hcount, (MakeMove_token_count _ _ _ _ Hwf Hmove).
    cbn [length]. lia.
Qed.

(** X2: when a sequence of [MakeMove] calls from the empty board succeeds,
    the board holds as many tokens as moves were made, so no sequence of
    more than [Height * Width] moves succeeds. *)
Theorem token_count_is_move_count moves bd :
  MakeMoves moves new = (inr tt, bd) →
  token_count bd = length moves ∧ length moves ≤ Height * Width.
Proof.
  intros Hrun.
  destruct (MakeMoves_token_count moves new bd wf_new Hrun) as [_ Hcount].
  assert (Hzero : token_count new = 0) by reflexivity.
  rewrite Hzero in Hcount; cbn [Nat.add] in Hcount. split; [done|].
  rewrite <- Hcount, <- length_squares. apply length_filter.
Qed.

Lemma token_count_is_move_count_witness :
  let moves := [(MoveType.Player1, 3); (MoveType.Player2, 3);
                (MoveType.Player1, 0)] in
  token_count (MakeMoves moves new).2 = 3 ∧ 3 ≤ Height * Width.
Proof.
  intros moves.
  apply (token_count_is_move_count moves (MakeMoves moves new).2). reflexivity.
Defined.

(** *** Filling a column *)

Lemma MakeMoves_app l1 : ∀ l2 bd bd1,
  MakeMoves l1 bd = (inr tt, bd1) → MakeMoves (l1 ++ l2) bd = MakeMoves l2 bd1.
Proof.
  induction l1 as [|[Move c] l1 IH]; intros l2 bd bd1 Hrun.
  - by injection Hrun as <-.
  - cbn [app MakeMoves] in *. unfold bind in *.
    destruct (MakeMove Move c bd) as [[e|[]] bd0]; [done|]. by apply IH.
Qed.

Lemma MakeMove_stacked_full Move c bd :
  c < Width → stacked bd c Height →
  MakeMove Move c bd = (inl (std_exception "Cannot make move"), bd).
Proof.
  intros Hc Hst.
  pose proof (GetColumnHeight_stacked bd c Height Hc Hst) as Hh.
  unfold GetColumnHeight in Hh.
  destruct (decide (Width ≤ c)); [lia|].
  destruct (decide (Height = Height)); [|done]. apply (inj inr) in Hh.
  rewrite MakeMove_unfold; cbv zeta.
  destruct (decide (Width ≤ c)); [lia|]. rewrite Hh.
  destruct (decide (Height < Height)); [lia|done].
Qed.

(** X3: a column of the empty board takes [Height] tokens and no more: a
    run of moves into column [c] succeeds when it has at most [Height]
    moves, and otherwise stops with "Cannot make move" at move
    [Height + 1]; either way the column then holds
    [min (length moves) Height] tokens. *)
Theorem column_capacity c moves :
  c < Width → Forall (λ m, m.2 = c) moves →
  ∃ bd,
    MakeMoves moves new =
      (if decide (length moves ≤ Height) then inr tt
       else inl (std_exception "Cannot make move"), bd)
    ∧ occupied_count bd c = length moves `min` Height.
Proof.
  intros Hc Hall. destruct (decide (length moves ≤ Height)) as [Hle|Hgt].
  - destruct (MakeMoves_stacked moves new c 0) as (bd & Hrun & _ & Hst);
      [apply wf_new|done|apply stacked_new|lia|done|].
    exists bd. split; [done|].
    rewrite (occupied_count_stacked bd c _ Hst). lia.
  - rewrite <- (take_drop Height moves) in Hall |- *.
    apply Forall_app in Hall as [Htake Hdrop].
    assert (Hlen : length (take Height moves) = Height)
      by (rewrite length_take; lia).
    destruct (MakeMoves_stacked (take Height moves) new c 0) as (bd & Hrun & _ & Hst);
      [apply wf_new|done|apply stacked_new|lia|done|].
    rewrite Hlen in Hst; cbn [Nat.add] in Hst.
    exists bd. rewrite (MakeMoves_app _ _ _ _ Hrun).
    destruct (drop Height moves) as [|[Move c'] rest] eqn:Hrest.
    { apply (f_equal length) in Hrest. rewrite length_drop in Hrest.
      cbn [length] in Hrest. lia. }
    apply Forall_cons in Hdrop as [Hc' _]; cbn [snd] in Hc'; subst c'.
    split.
    + cbn [MakeMoves]. unfold bind. by rewrite MakeMove_stacked_full.
    + rewrite (occupied_count_stacked bd c _ Hst).
      rewrite length_app, Hlen. cbn [length]. lia.
Qed.

Lemma column_capacity_witness :
  ∃ bd,
    MakeMoves (replicate 7 (MoveType.Player1, 0)) new =
      (inl (std_exception "Cannot make move"), bd)
    ∧ occupied_count bd 0 = 6.
Proof.
  destruct (column_capacity 0 (replicate 7 (MoveType.Player1, 0))) as (bd & Hrun & Hocc).
  - unfold Width; lia.
  - by apply Forall_replicate.
  - exists bd. split; [exact Hrun|exact Hocc].
Defined.

(** X4: a [MakeMove] on column [c], successful or not, changes nothing in
    any other column: every cell of the other column reads the same, and
    so do [GetColumnHeight] and [CanMakeMove]. *)
Theorem MakeMove_other_column Move c bd r bd' c' :
  MakeMove Move c bd = (r, bd') → c' ≠ c →
  (∀ i, GetSpace i c' bd' = GetSpace i c' bd)
  ∧ GetColumnHeight c' bd' = GetColumnHeight c' bd
  ∧ CanMakeMove c' bd' = CanMakeMove c' bd.
Proof.
  intros Hmove Hne.
  assert (Hcells : ∀ i, cell (board bd') i c' = cell (board bd) i c').
  { revert Hmove. rewrite MakeMove_unfold; cbv zeta.
    repeat case_decide; intros [= <- <-]; try done.
    intros i; cbn [board]. apply cell_alter_ne. congruence. }
  assert (Hloop : GetColumnHeight_loop (board bd') c' Height
                  = GetColumnHeight_loop (board bd) c' Height)
    by (by apply GetColumnHeight_loop_column).
  split; [|split].
  - intros i. unfold GetSpace. by rewrite Hcells.
  - unfold GetColumnHeight. by rewrite Hloop.
  - rewrite !CanMakeMove_unfold. by rewrite Hloop.
Qed.

Lemma MakeMove_other_column_witness :
  let bd := (MakeMoves (replicate 6 (MoveType.Player1, 2)) new).2 in
  let bd' := (MakeMove MoveType.Player2 3 bd).2 in
  (∀ i, GetSpace i 2 bd' = GetSpace i 2 bd)
  ∧ GetColumnHeight 2 bd' = GetColumnHeight 2 bd
  ∧ CanMakeMove 2 bd' = CanMakeMove 2 bd.
Proof.
  intros bd bd'.
  apply (MakeMove_other_column MoveType.Player2 3 bd (inr tt)); [reflexivity|lia].
Defined.

(** *** Wins *)

Lemma holds_kept player Move c bd bd' i j :
  MakeMove Move c bd = (inr tt, bd') → player ≠ SpaceState.Empty →
  holds bd player i j → holds bd' player i j.
Proof.
  intros Hmove Hplayer Hholds.
  destruct (MakeMove_success _ _ _ _ Hmove) as (Hc & h & Hh & Hempty & ->).
  apply holds_cell in Hholds as (Hi & Hj & Hcell).
  apply holds_cell. split; [done|]. split; [done|]. cbn [board].
  rewrite cell_alter_ne; [done|]. intros [= -> ->]. congruence.
Qed.

(** X5: a move never undoes a win: when [CheckWin] is true for a player
    and a [MakeMove] of either player succeeds, [CheckWin] is still true
    for that player. *)
Theorem CheckWin_kept player Move c bd bd' :
  player ≠ SpaceState.Empty →
  MakeMove Move c bd = (inr tt, bd') →
  CheckWin player bd = true → CheckWin player bd' = true.
Proof.
  intros Hplayer Hmove Hwin%CheckWin_iff. apply CheckWin_iff.
  pose proof (holds_kept player Move c bd bd') as Hkept.
  destruct Hwin as [r0 c0 H1 H2 H3 H4|r0 c0 H1 H2 H3 H4|r0 c0 H1 H2 H3 H4|r0 c0 H1 H2 H3 H4].
  - apply (four_horizontal _ _ r0 c0); by apply Hkept.
  - apply (four_vertical _ _ r0 c0); by apply Hkept.
  - apply (four_diagonal1 _ _ r0 c0); by apply Hkept.
  - apply (four_diagonal2 _ _ r0 c0); by apply Hkept.
Qed.

Lemma CheckWin_kept_witness :
  let won := (MakeMoves [(MoveType.Player1, 0); (MoveType.Player2, 1);
                         (MoveType.Player1, 0); (MoveType.Player2, 1);
                         (MoveType.Player1, 0); (MoveType.Player2, 1);
                         (MoveType.Player1, 0)] new).2 in
  CheckWin SpaceState.Player1 (MakeMove MoveType.Player2 0 won).2 = true.
Proof.
  intros won.
  apply (CheckWin_kept SpaceState.Player1 MoveType.Player2 0 won);
    [discriminate|reflexivity|reflexivity].
Defined.

(** X6: [CheckWin player] is false on every board that holds fewer than
    four cells with [player]'s value. *)
Theorem CheckWin_needs_four_tokens player bd :
  tokens_on player bd squares < 4 → CheckWin player bd = false.
Proof.
  intros Hfew. apply not_true_is_false. intros Hwin%CheckWin_iff.
  destruct (FourInARow_line player bd Hwin) as (d & r0 & c0 & H4).
  pose proof (tokens_on_line_le player bd d r0 c0). lia.
Qed.

Lemma CheckWin_needs_four_tokens_witness :
  CheckWin SpaceState.Player2
    (MakeMoves [(MoveType.Player2, 0); (MoveType.Player2, 1);
                (MoveType.Player2, 2)] new).2 = false.
Proof.
  apply CheckWin_needs_four_tokens. vm_compute. lia.
Defined.

(** *** The last move *)

(** X7: after a successful [MakeMove] on a well-formed board, [LastMove]
    is initialized and names a cell of column [c] that holds the mover's
    token, and [IsLastMove] is true for that cell and no other. *)
Theorem LastMove_marks_newest Move c bd bd' :
  wf bd → MakeMove Move c bd = (inr tt, bd') →
  isInitialized (LastMove bd') = true
  ∧ x (LastMove bd') = c
  ∧ GetSpace (y (LastMove bd')) (x (LastMove bd')) bd'
    = inr (ConvertMoveToSpaceState Move)
  ∧ ∀ i j, IsLastMove i j bd' = true ↔ i = y (LastMove bd') ∧ j = c.
Proof.
  intros Hwf Hmove.
  destruct (MakeMove_success _ _ _ _ Hmove) as (Hc & h & Hh & Hempty & ->).
  destruct (wf_lookup bd h Hwf Hh) as (cells & Hcells & Hlen).
  cbn [LastMove x y isInitialized].
  split; [done|]. split; [done|]. split.
  - rewrite GetSpace_cell by done; cbn [board]. f_equal.
    eapply cell_alter_eq; [done|lia].
  - intros i j. unfold IsLastMove; cbn [LastMove x y isInitialized andb].
    rewrite andb_true_iff, !bool_decide_eq_true. split; intros [? ?]; by subst.
Qed.

Lemma LastMove_marks_newest_witness :
  let bd' := (MakeMove MoveType.Player2 4 new).2 in
  isInitialized (LastMove bd') = true
  ∧ x (LastMove bd') = 4
  ∧ GetSpace (y (LastMove bd')) (x (LastMove bd')) bd' = inr SpaceState.Player2
  ∧ ∀ i j, IsLastMove i j bd' = true ↔ i = y (LastMove bd') ∧ j = 4.
Proof.
  intros bd'.
  apply (LastMove_marks_newest MoveType.Player2 4 new); [apply wf_new|reflexivity].
Defined.

End BoardMoves.

(** * More on main *)

Section Rounds.
Import Board.

Lemma MakeMove_throw_same Move c bd e bd' :
  MakeMove Move c bd = (inl e, bd') → bd' = bd.
Proof.
  rewrite MakeMove_unfold; cbv zeta. repeat case_decide; by intros [= <- <-].
Qed.

Lemma MakeMove_in_range Move c bd bd' :
  MakeMove Move c bd = (inr tt, bd') → c < Width ∧ CanMakeMove c bd = inr true.
Proof.
  rewrite MakeMove_unfold, CanMakeMove_unfold; cbv zeta.
  destruct (decide (Width ≤ c)); [done|].
  destruct (decide (_ < Height)); [|done].
  intros _. split; [lia|]. by rewrite bool_decide_eq_true_2.
Qed.

(** The first index below [n] where a test succeeds, if there is one. *)
Lemma first_true (P : nat → bool) n :
  (∀ j, j < n → P j = false)
  ∨ ∃ i, i < n ∧ P i = true ∧ ∀ j, j < i → P j = false.
Proof.
  induction n as [|n [IH|(i & Hi & Hp & Hfirst)]].
  - left. lia.
  - destruct (P n) eqn:Hn.
    + right. exists n. split; [lia|]. split; [done|]. intros j Hj. apply IH; lia.
    + left. intros j Hj. destruct (decide (j = n)) as [->|]; [done|]. apply IH; lia.
  - right. exists i. split; [lia|done].
Qed.

(** *** GetRequestedColumn *)

(** X8: [GetRequestedColumn] never throws and never touches the board.
    It returns a column exactly when the read of the number neither fails
    nor reaches the end of the input and the number [n] read satisfies
    [1 ≤ n ≤ Width]; the column is [n - 1], below [Width], and the input
    left is what the read left.  Whatever it returns, the input does not
    grow, and it loses at least one character unless it is empty. *)
Theorem GetRequestedColumn_in_range w :
  ∃ Column w',
    GetRequestedColumn w = (inr Column, w')
    ∧ b w' = b w
    ∧ (∀ c, Column = Some c ↔
            let got := (extract_unsigned (cin w)).1 in
            eofbit got = false ∧ failbit got = false
            ∧ (1 ≤ value got)%N ∧ (value got ≤ N.of_nat Width)%N
            ∧ c = N.to_nat (value got) - 1)
    ∧ (∀ c, Column = Some c → c < Width ∧ cin w' = (extract_unsigned (cin w)).2)
    ∧ (cin w = [] → cin w' = [])
    ∧ (cin w ≠ [] → length (cin w') < length (cin w)).
Proof.
  destruct (GetRequestedColumn_cases w)
    as (Column & w1 & Hread & Hb & _ & Hnil & Hlt & Hrange).
  exists Column, w1. split; [done|]. split; [done|].
  split; [|split; [|done]].
  - intros c. revert Hread. unfold GetRequestedColumn, bind, say; cbn [b cin cout].
    destruct (extract_unsigned (cin w)) as [got rest]; cbn [fst].
    destruct (eofbit got).
    { intros [= <- _]. split; [done|]. by intros [? _]. }
    destruct (failbit got) eqn:Hfail; cbn [orb].
    { intros [= <- _]. split; [done|]. by intros (_ & ? & _). }
    destruct (value got <? 1)%N eqn:Hlow; cbn [orb].
    { intros [= <- _]. split; [done|]. apply N.ltb_lt in Hlow. intros (_ & _ & ? & _). lia. }
    destruct (N.of_nat Width <? value got)%N eqn:Hhigh.
    { intros [= <- _]. split; [done|]. apply N.ltb_lt in Hhigh. intros (_ & _ & _ & ? & _). lia. }
    apply N.ltb_ge in Hlow, Hhigh. intros [= <- _]. split.
    + by intros [= <-].
    + by intros (_ & _ & _ & _ & ->).
  - intros c ->. split; [by apply Hrange|].
    revert Hread. unfold GetRequestedColumn, bind, say; cbn [b cin cout].
    destruct (extract_unsigned (cin w)) as [got rest]; cbn [snd].
    destruct (eofbit got); [done|]. destruct (_ || _ || _); [done|].
    by intros [= _ <-].
Qed.

(** Three inputs: a number at the very end of the input is not taken; a
    number before a newline is; a number out of range takes the rest of
    its line with it. *)
Example GetRequestedColumn_samples :
  let run input := GetRequestedColumn (main_start (String.list_ascii_of_string input)) in
  ((run "3").1, cin (run "3").2) = (inr None, [])
  ∧ ((run "3
").1, cin (run "3
").2) = (inr (Some 2), ["010"%char])
  ∧ ((run "9 4
5").1, cin (run "9 4
5").2) = (inr None, ["5"%char]).
Proof. repeat split. Qed.

(** The read of the game-over handler takes one character, after the
    whitespace before it; what follows stays in the input for the next
    round. *)
Example extract_char_samples :
  extract_char (String.list_ascii_of_string "yes 4") = String.list_ascii_of_string "es 4"
  ∧ extract_char (String.list_ascii_of_string "  y") = []
  ∧ extract_char [] = [].
Proof. repeat split. Qed.

(** *** The input loop *)

Lemma inputLoop_cases fuel currentPlayer : ∀ w r w',
  main_inputLoop fuel currentPlayer w = (r, w') →
  (r = inr Continue
   ∧ ∃ c, c < Width ∧ MakeMove currentPlayer c (b w) = (inr tt, b w'))
  ∨ (r = inr Spin ∧ b w' = b w).
Proof.
  induction fuel as [|fuel IH]; intros w r w' Hrun.
  - injection Hrun as <- <-. by right.
  - cbn [main_inputLoop] in Hrun. unfold bind at 1 in Hrun.
    destruct (GetRequestedColumn_cases w)
      as (Column & w1 & Hread & Hb & _ & _ & _ & Hrange).
    rewrite Hread in Hrun. rewrite <- Hb.
    destruct Column as [c|]; [|by apply IH in Hrun].
    unfold try_catch, bind, on_b, ret in Hrun.
    destruct (MakeMove currentPlayer c (b w1)) as [[e|[]] bd'] eqn:Hmove.
    + apply MakeMove_throw_same in Hmove as ->.
      unfold say in Hrun. apply IH in Hrun. exact Hrun.
    + injection Hrun as <- <-. left. split; [done|].
      exists c. cbn [b]. split; [by apply Hrange|done].
Qed.

(** X9: the input loop of [main], run as [main] runs it, never throws.
    Either it ends after one successful [MakeMove] of the current player
    into a column below [Width], and nothing else has changed the board,
    or the whole input was used up and the board is what it was: rejected
    input never costs a turn. *)
Theorem input_loop_outcome currentPlayer w r w' :
  main_inputLoop (length (cin w)) currentPlayer w = (r, w') →
  (r = inr Continue
   ∧ ∃ c, c < Width ∧ MakeMove currentPlayer c (b w) = (inr tt, b w'))
  ∨ (r = inr Spin ∧ b w' = b w ∧ cin w' = []).
Proof.
  intros Hrun.
  destruct (inputLoop_cases _ _ _ _ _ Hrun) as [Hmoved|[-> Hsame]]; [by left|].
  right. split; [done|]. split; [done|].
  by apply (inputLoop_Spin (length (cin w)) currentPlayer w w').
Qed.

Lemma input_loop_outcome_witness :
  let w := {| b := (MakeMoves (replicate 6 (MoveType.Player1, 0)) new).2;
              cin := String.list_ascii_of_string "x 9
1
2
3
";
              cout := [] |} in
  let run := main_inputLoop (length (cin w)) MoveType.Player1 w in
  (run.1 = inr Continue
   ∧ ∃ c, c < Width ∧ MakeMove MoveType.Player1 c (b w) = (inr tt, b run.2))
  ∨ (run.1 = inr Spin ∧ b run.2 = b w ∧ cin run.2 = []).
Proof.
  intros w run.
  apply (input_loop_outcome MoveType.Player1 w run.1 run.2).
  apply surjective_pairing.
Defined.

(** *** The draw test *)

Lemma isDraw_cases cols : ∀ w,
  Forall (λ c, c < Width) cols →
  ∃ d, main_isDraw cols w = (inr d, w)
       ∧ (d = true ↔ Forall (λ c, CanMakeMove c (b w) = inr false) cols).
Proof.
  induction cols as [|c cols IH]; intros w Hcols.
  - exists true. split; [done|]. split; [by constructor|done].
  - apply Forall_cons in Hcols as [Hc Hcols].
    cbn [main_isDraw]. unfold bind, on_b, call.
    destruct (CanMakeMove_total c (b w) Hc) as [[|] Hcan]; rewrite Hcan.
    + exists false. split; [by destruct w|]. split; [done|].
      intros [Hfalse _]%Forall_cons. congruence.
    + destruct (IH {| b := b w; cin := cin w; cout := cout w |} Hcols)
        as (d & Hrun & Hd); cbn [b] in *.
      exists d. split; [by destruct w|]. rewrite Hd. split.
      * intros Hrest. by apply Forall_cons.
      * by intros [_ Hrest]%Forall_cons.
Qed.

(** X10: the draw test of [main] never throws and changes nothing; it
    answers true exactly when no column of the board is playable. *)
Theorem isDraw_iff_all_full w :
  ∃ isDraw,
    main_isDraw (range 0 Width) w = (inr isDraw, w)
    ∧ (isDraw = true ↔ ∀ c, c < Width → CanMakeMove c (b w) = inr false).
Proof.
  destruct (isDraw_cases (range 0 Width) w) as (d & Hrun & Hd).
  - apply Forall_range. intros; lia.
  - exists d. split; [done|]. rewrite Hd. split.
    + intros Hall c Hc. apply (proj1 (Forall_forall _ _) Hall).
      apply list_elem_of_In, in_seq. lia.
    + intros Hall. apply Forall_range. intros c _ Hc. by apply Hall.
Qed.

(** *** The random probe *)

Lemma probe_first fuel : ∀ a w,
  1 ≤ a ≤ Width →
  (∃ k, k < fuel ∧ CanMakeMove (Nat.iter k next_autoMove a - 1) (b w) = inr true) →
  ∃ k, k < fuel
       ∧ main_probe fuel a w = (inr (Some (Nat.iter k next_autoMove a)), w)
       ∧ 1 ≤ Nat.iter k next_autoMove a ≤ Width
       ∧ CanMakeMove (Nat.iter k next_autoMove a - 1) (b w) = inr true
       ∧ ∀ j, j < k →
           CanMakeMove (Nat.iter j next_autoMove a - 1) (b w) = inr false.
Proof.
  induction fuel as [|fuel IH]; intros a w Ha (k0 & Hk0 & Hcan0); [lia|].
  cbn [main_probe]. unfold bind at 1, on_b, call.
  destruct (CanMakeMove_total (a - 1) (b w)) as [[|] Hthis]; [lia| |].
  - rewrite Hthis; cbn [negb]. exists 0.
    change (Nat.iter 0 next_autoMove a) with a.
    split; [lia|]. split; [by destruct w|]. split; [done|]. split; [done|]. lia.
  - rewrite Hthis; cbn [negb].
    destruct k0 as [|k0];
      [change (Nat.iter 0 next_autoMove a) with a in Hcan0; congruence|].
    rewrite Nat.iter_succ_r in Hcan0.
    destruct (IH (next_autoMove a) {| b := b w; cin := cin w; cout := cout w |})
      as (k & Hk & Hrun & Hrange & Hcan & Hfirst);
      [by apply next_autoMove_range|exists k0; split; [lia|done]|].
    cbn [b] in *. exists (S k). rewrite !Nat.iter_succ_r.
    split; [lia|]. split; [by destruct w|]. split; [done|]. split; [done|].
    intros [|j] Hj; [done|]. rewrite Nat.iter_succ_r. apply Hfirst. lia.
Qed.

(** X11: the random probe ends whenever some column is playable, within
    [Width] rounds and without changing anything.  It stops at the first
    playable column met from the start value [1 + rand() % Width],
    counting upwards and from [Width] back to 1. *)
Theorem probe_ends_on_first_playable rnd w c :
  c < Width → CanMakeMove c (b w) = inr true →
  ∃ k, k < Width
       ∧ let autoMove := Nat.iter k next_autoMove (1 + rnd mod Width) in
         main_probe Width (1 + rnd mod Width) w = (inr (Some autoMove), w)
         ∧ 1 ≤ autoMove ≤ Width
         ∧ CanMakeMove (autoMove - 1) (b w) = inr true
         ∧ ∀ j, j < k →
             CanMakeMove (Nat.iter j next_autoMove (1 + rnd mod Width) - 1) (b w)
             = inr false.
Proof.
  intros Hc Hcan.
  assert (Ha : 1 ≤ 1 + rnd mod Width ≤ Width).
  { pose proof (Nat.mod_upper_bound rnd Width). unfold Width in *. lia. }
  apply probe_first; [done|].
  destruct (next_autoMove_reaches _ c Ha Hc) as (k & Hk & Hiter).
  exists k. split; [done|]. rewrite Hiter. by replace (S c - 1) with c by lia.
Qed.

Lemma probe_ends_on_first_playable_witness :
  let w := {| b := (MakeMoves (replicate 6 (MoveType.Player1, 6)) new).2;
              cin := []; cout := [] |} in
  ∃ k, k < Width
       ∧ let autoMove := Nat.iter k next_autoMove (1 + 6 mod Width) in
         main_probe Width (1 + 6 mod Width) w = (inr (Some autoMove), w)
         ∧ 1 ≤ autoMove ≤ Width
         ∧ CanMakeMove (autoMove - 1) (b w) = inr true
         ∧ ∀ j, j < k →
             CanMakeMove (Nat.iter j next_autoMove (1 + 6 mod Width) - 1) (b w)
             = inr false.
Proof.
  intros w. apply (probe_ends_on_first_playable 6 w 3).
  - unfold Width; lia.
  - reflexivity.
Defined.

(** *** The automated player's turn *)

Lemma lookForBlock_none cols w :
  Forall (λ i, i < Width ∧ wins_at MoveType.Player1 i (b w) = false) cols →
  main_lookForBlock cols w = (inr false, w).
Proof.
  induction 1 as [|i cols [Hi Hno] _ IH]; [done|].
  rewrite lookForBlock_step by done. by rewrite Hno.
Qed.

Lemma MakeMove_pair Move i bd :
  (MakeMove Move i bd).1 = inr tt →
  MakeMove Move i bd = (inr tt, (MakeMove Move i bd).2).
Proof. destruct (MakeMove Move i bd); cbn [fst snd]. by intros ->. Qed.

Lemma no_win_after Move i bd :
  wins_at Move i bd = false → CanMakeMove i bd = inr true →
  CheckWin (ConvertMoveToSpaceState Move) (MakeMove Move i bd).2 = false.
Proof. unfold wins_at. intros Hno Hcan. by rewrite Hcan in Hno. Qed.

Lemma player2_fallback rnd w c :
  (∀ j, j < Width → wins_at MoveType.Player2 j (b w) = false) →
  (∀ j, j < Width → wins_at MoveType.Player1 j (b w) = false) →
  c < Width → CanMakeMove c (b w) = inr true →
  ∃ k, k < Width
       ∧ let autoMove := Nat.iter k next_autoMove (1 + rnd mod Width) in
         1 ≤ autoMove ≤ Width
         ∧ (∀ j, j < k →
              CanMakeMove (Nat.iter j next_autoMove (1 + rnd mod Width) - 1) (b w)
              = inr false)
         ∧ ∃ w', main_player2 rnd w = (inr Continue, w')
                 ∧ MakeMove MoveType.Player2 (autoMove - 1) (b w) = (inr tt, b w')
                 ∧ cin w' = cin w.
Proof.
  intros Hnowin Hnoblock Hc Hcan. destruct w as [bd ci co]; cbn [b cin] in *.
  unfold main_player2. unfold bind at 1, PrintBoard, say; cbv beta iota.
  cbn [b cin cout].
  set (w1 := {| b := bd; cin := ci; cout := _ |}).
  assert (Ha : 1 ≤ 1 + rnd mod Width ≤ Width).
  { pose proof (Nat.mod_upper_bound rnd Width). unfold Width in *. lia. }
  destruct (probe_first Width (1 + rnd mod Width) w1 Ha)
    as (k & Hk & Hprobe & Hrange & Hplay & Hfirst).
  { destruct (next_autoMove_reaches _ c Ha Hc) as (k & Hk & Hiter).
    exists k. split; [done|]. rewrite Hiter.
    by replace (S c - 1) with c by lia. }
  cbn [b w1] in Hplay, Hfirst.
  exists k. split; [done|]. cbv zeta. split; [done|]. split; [done|].
  set (a := Nat.iter k next_autoMove (1 + rnd mod Width)) in *.
  unfold bind at 1. rewrite (lookForWin_none _ w1);
    [|apply Forall_range; intros j _ Hj; split; [lia|by apply Hnowin]].
  cbv beta iota. unfold bind at 1. rewrite (lookForBlock_none _ w1);
    [|apply Forall_range; intros j _ Hj; split; [lia|by apply Hnoblock]].
  cbv beta iota. cbn [negb]. unfold bind. rewrite Hprobe. cbv beta iota.
  unfold on_b, ret, read. cbn [b cin cout w1 ConvertMoveToSpaceState].
  pose proof (MakeMove_playable MoveType.Player2 (a - 1) bd Hplay) as Hok.
  pose proof (no_win_after MoveType.Player2 (a - 1) bd
                (Hnowin (a - 1) ltac:(lia)) Hplay) as Hcheck.
  cbn [ConvertMoveToSpaceState] in Hcheck.
  destruct (MakeMove MoveType.Player2 (a - 1) bd) as [r bd']; cbn [fst snd] in *.
  subst r. cbn [b]. rewrite Hcheck. by eexists.
Qed.

Lemma player2_cases rnd w c :
  c < Width → CanMakeMove c (b w) = inr true →
  ∃ i r w',
    main_player2 rnd w = (r, w')
    ∧ i < Width
    ∧ MakeMove MoveType.Player2 i (b w) = (inr tt, b w')
    ∧ cin w' = cin w
    ∧ ((r = inr Continue ∧ CheckWin SpaceState.Player2 (b w') = false)
       ∨ (r = inl GameOverException ∧ CheckWin SpaceState.Player2 (b w') = true)).
Proof.
  intros Hc Hcan.
  destruct (first_true (λ j, wins_at MoveType.Player2 j (b w)) Width)
    as [Hnowin|(i0 & Hi0 & Hwin & Hfirst)].
  - destruct (first_true (λ j, wins_at MoveType.Player1 j (b w)) Width)
      as [Hnoblock|(i0 & Hi0 & Hthreat & Hfirst)].
    + destruct (player2_fallback rnd w c Hnowin Hnoblock Hc Hcan)
        as (k & _ & Hrange & _ & w' & Hrun & Hmove & Hcin).
      exists (Nat.iter k next_autoMove (1 + rnd mod Width) - 1), (inr Continue), w'.
      split; [exact Hrun|]. split; [lia|].
      split; [exact Hmove|]. split; [done|]. left. split; [done|].
      destruct (MakeMove_in_range _ _ _ _ Hmove) as [Hlt Hplay].
      pose proof (no_win_after MoveType.Player2 _ (b w) (Hnowin _ Hlt) Hplay) as Hno.
      by rewrite Hmove in Hno.
    + destruct (wins_at_true _ _ _ Hthreat) as [Hplay _].
      pose proof (MakeMove_playable MoveType.Player2 i0 (b w) Hplay) as Hok.
      pose proof (no_win_after MoveType.Player2 i0 (b w) (Hnowin i0 Hi0) Hplay) as Hcheck.
      cbn [ConvertMoveToSpaceState] in Hcheck.
      destruct w as [bd ci co]; cbn [b cin] in *.
      unfold main_player2. unfold bind at 1, PrintBoard, say; cbv beta iota.
      cbn [b cin cout].
      set (w1 := {| b := bd; cin := ci; cout := _ |}).
      unfold bind at 1. rewrite (lookForWin_none _ w1);
        [|apply Forall_range; intros j _ Hj; split; [lia|by apply Hnowin]].
      cbv beta iota. unfold bind at 1. rewrite (range_split 0 i0 Width) by lia.
      rewrite (lookForBlock_first _ i0 _ w1);
        [|apply Forall_range; intros j _ Hj; split; [lia|by apply Hfirst]|done|done].
      cbn [b w1]. rewrite Hcheck. cbv beta iota. cbn [negb].
      unfold bind, ret, read. unfold after_move; cbn [b cin cout w1 ConvertMoveToSpaceState].
      rewrite Hcheck.
      exists i0. eexists _, _. split; [done|]. cbn [b cin].
      split; [done|]. split; [by apply MakeMove_pair|]. split; [done|]. by left.
  - destruct (wins_at_true _ _ _ Hwin) as [Hplay Hcheck].
    pose proof (MakeMove_playable MoveType.Player2 i0 (b w) Hplay) as Hok.
    cbn [ConvertMoveToSpaceState] in Hcheck.
    destruct w as [bd ci co]; cbn [b cin] in *.
    unfold main_player2. unfold bind at 1, PrintBoard, say; cbv beta iota.
    cbn [b cin cout].
    set (w1 := {| b := bd; cin := ci; cout := _ |}).
    unfold bind at 1. rewrite (range_split 0 i0 Width) by lia.
    rewrite (lookForWin_first _ i0 _ w1);
      [|apply Forall_range; intros j _ Hj; split; [lia|by apply Hfirst]|done|done].
    exists i0. eexists _, _. split; [done|]. unfold after_win; cbn [b cin w1].
    split; [done|]. split; [by apply MakeMove_pair|]. split; [done|]. by right.
Qed.

(** X12: whenever some column is playable, the automated player's turn
    puts exactly one Player2 token on the board, in a playable column, and
    reads no input; it ends the game with [GameOverException] exactly when
    that token makes [CheckWin(Player2)] true, and otherwise hands the
    turn back.  No other exception leaves the turn and the probe loop
    always ends. *)
Theorem player2_moves_once rnd w c :
  c < Width → CanMakeMove c (b w) = inr true →
  ∃ i r w',
    main_player2 rnd w = (r, w')
    ∧ i < Width
    ∧ MakeMove MoveType.Player2 i (b w) = (inr tt, b w')
    ∧ cin w' = cin w
    ∧ ((r = inr Continue ∧ CheckWin SpaceState.Player2 (b w') = false)
       ∨ (r = inl GameOverException ∧ CheckWin SpaceState.Player2 (b w') = true)).
Proof. apply player2_cases. Qed.

Lemma player2_moves_once_witness :
  let w := main_start [] in
  ∃ i r w',
    main_player2 4 w = (r, w')
    ∧ i < Width
    ∧ MakeMove MoveType.Player2 i (b w) = (inr tt, b w')
    ∧ cin w' = cin w
    ∧ ((r = inr Continue ∧ CheckWin SpaceState.Player2 (b w') = false)
       ∨ (r = inl GameOverException ∧ CheckWin SpaceState.Player2 (b w') = true)).
Proof.
  intros w. apply (player2_moves_once 4 w 0); [unfold Width; lia|reflexivity].
Defined.

(** X13: when no playable column wins for Player2 at once and none would
    complete a four for Player1, the automated player's token goes into
    the first playable column met from [1 + rand() % Width] (a 1-based
    column, counting upwards and from [Width] back to 1), and the game
    goes on. *)
Theorem random_fallback rnd w c :
  (∀ j, j < Width → wins_at MoveType.Player2 j (b w) = false) →
  (∀ j, j < Width → wins_at MoveType.Player1 j (b w) = false) →
  c < Width → CanMakeMove c (b w) = inr true →
  ∃ k, k < Width
       ∧ let autoMove := Nat.iter k next_autoMove (1 + rnd mod Width) in
         1 ≤ autoMove ≤ Width
         ∧ (∀ j, j < k →
              CanMakeMove (Nat.iter j next_autoMove (1 + rnd mod Width) - 1) (b w)
              = inr false)
         ∧ ∃ w', main_player2 rnd w = (inr Continue, w')
                 ∧ MakeMove MoveType.Player2 (autoMove - 1) (b w) = (inr tt, b w')
                 ∧ cin w' = cin w.
Proof. apply player2_fallback. Qed.

Lemma random_fallback_witness :
  let w := {| b := (MakeMoves [(MoveType.Player1, 6); (MoveType.Player2, 6);
                               (MoveType.Player1, 6); (MoveType.Player2, 6);
                               (MoveType.Player1, 6); (MoveType.Player2, 6)] new).2;
              cin := []; cout := [] |} in
  ∃ k w', k < Width ∧ main_player2 6 w = (inr Continue, w') ∧ cin w' = cin w.
Proof.
  intros w.
  destruct (random_fallback 6 w 0) as (k & Hk & _ & _ & w' & Hrun & _ & Hcin).
  - intros j Hj. unfold Width in Hj.
    destruct j as [|[|[|[|[|[|[|j]]]]]]]; [reflexivity..|lia].
  - intros j Hj. unfold Width in Hj.
    destruct j as [|[|[|[|[|[|[|j]]]]]]]; [reflexivity..|lia].
  - unfold Width; lia.
  - reflexivity.
  - exists k, w'. split; [exact Hk|]. split; [exact Hrun|exact Hcin].
Defined.

(** *** One round *)

(** Some column is playable when not all are full. *)
Lemma playable_or_full bd :
  (∀ c, c < Width → CanMakeMove c bd = inr false)
  ∨ ∃ c, c < Width ∧ CanMakeMove c bd = inr true.
Proof.
  destruct (first_true (λ j, bool_decide (CanMakeMove j bd = inr true)) Width)
    as [Hnone|(c & Hc & Hplay%bool_decide_eq_true & _)].
  - left. intros c Hc. specialize (Hnone c Hc). apply bool_decide_eq_false in Hnone.
    destruct (CanMakeMove_total c bd Hc) as [[|] Hcan]; congruence.
  - right. by exists c.
Qed.

Lemma main_try_cases rnd w :
  (main_try rnd w).1 = inr Continue
  ∨ (main_try rnd w).1 = inr Spin
  ∨ (main_try rnd w).1 = inl GameOverException.
Proof.
  destruct (main_try rnd w) as [r w'] eqn:Htry; cbn [fst].
  unfold main_try in Htry. unfold bind at 1, PrintBoard, say in Htry.
  unfold bind at 1, read in Htry. unfold bind at 1 in Htry.
  match type of Htry with
  | context [main_inputLoop ?f ?p ?w1] =>
      destruct (main_inputLoop f p w1) as [r1 w2] eqn:Hloop
  end.
  destruct (inputLoop_cases _ _ _ _ _ Hloop) as [[-> _]|[-> _]];
    [|injection Htry as <- _; by right; left].
  unfold bind at 1, read in Htry.
  destruct (CheckWin _ (b w2)).
  { injection Htry as <- _. by right; right. }
  unfold bind at 1 in Htry.
  destruct (isDraw_cases (range 0 Width) w2) as (d & Hdraw & Hiff);
    [apply Forall_range; intros; lia|].
  rewrite Hdraw in Htry. destruct d.
  { injection Htry as <- _. by right; right. }
  destruct (playable_or_full (b w2)) as [Hfull|(c & Hc & Hplay)].
  { assert (false = true); [|done]. apply Hiff, Forall_range.
    intros j _ Hj. by apply Hfull. }
  destruct (player2_cases rnd w2 c Hc Hplay)
    as (i & r2 & w3 & Hrun & _ & _ & _ & [[-> _]|[-> _]]);
    rewrite Hrun in Htry; injection Htry as <- _; [by left|by right; right].
Qed.

(** X14: the [try] block of a round ends in one of three ways: it
    returns, it is stuck for lack of input, or it throws
    [GameOverException]; it never throws another [std::exception], so the
    second handler of [main] is never entered.  A whole round, handlers
    included, never throws. *)
Theorem round_throws_only_GameOver rnd w :
  (∀ msg, (main_try rnd w).1 ≠ inl (std_exception msg))
  ∧ ((main_iteration rnd w).1 = inr Continue ∨ (main_iteration rnd w).1 = inr Spin).
Proof.
  pose proof (main_try_cases rnd w) as Htry. split.
  - intros msg Heq. rewrite Heq in Htry. by destruct Htry as [|[|]].
  - unfold main_iteration, try_catch.
    destruct (main_try rnd w) as [[e|s] w1]; cbn [fst] in *.
    + destruct Htry as [|[|[= ->]]]; [done..|].
      unfold bind. rewrite gameOver_unfold. by left.
    + destruct Htry as [[= ->]|[[= ->]|]]; [by left|by right|done].
Qed.



Lemma inputLoop_first_valid fuel currentPlayer w got rest bd' :
  extract_unsigned (cin w) = (got, rest) →
  eofbit got = false → failbit got = false →
  (1 ≤ value got)%N → (value got ≤ N.of_nat Width)%N →
  MakeMove currentPlayer (N.to_nat (value got) - 1) (b w) = (inr tt, bd') →
  main_inputLoop (S fuel) currentPlayer w =
    (inr Continue, {| b := bd'; cin := rest; cout := cout w ++ [EvPrompt] |}).
Proof.
  intros Hex Heof Hfail Hlow Hhigh Hmove. cbn [main_inputLoop].
  unfold bind at 1, GetRequestedColumn, bind, say; cbn [b cin cout].
  rewrite Hex, Heof, Hfail; cbn [orb].
  apply N.ltb_ge in Hlow, Hhigh. rewrite Hlow, Hhigh; cbn [orb].
  unfold try_catch, bind, on_b, ret; cbn [b cin cout]. by rewrite Hmove.
Qed.

(** X16: when the first read of a round yields, before the end of the
    input, a number [n] with [1 ≤ n ≤ Width] whose column [n - 1] is
    playable and completes a four for Player1, the round ends with
    [GameOverException] right after that move: the automated player does
    not move, and the input is what that one read left. *)
Theorem human_win_ends_round rnd w got rest :
  extract_unsigned (cin w) = (got, rest) →
  eofbit got = false → failbit got = false →
  (1 ≤ value got)%N → (value got ≤ N.of_nat Width)%N →
  wins_at MoveType.Player1 (N.to_nat (value got) - 1) (b w) = true →
  ∃ w', main_try rnd w = (inl GameOverException, w')
        ∧ MakeMove MoveType.Player1 (N.to_nat (value got) - 1) (b w) = (inr tt, b w')
        ∧ cin w' = rest.
Proof.
  intros Hex Heof Hfail Hlow Hhigh Hwin.
  destruct (wins_at_true _ _ _ Hwin) as [Hplay Hcheck].
  pose proof (MakeMove_pair _ _ _ (MakeMove_playable MoveType.Player1 _ _ Hplay)) as Hmove.
  assert (Hmore : cin w ≠ []).
  { intros Hnil. rewrite Hnil in Hex. injection Hex as <- _. done. }
  unfold main_try. unfold bind at 1, PrintBoard, say; cbv beta iota.
  unfold bind at 1, read; cbv beta iota. unfold bind at 1. cbn [cin].
  destruct (cin w) as [|c0 s0] eqn:Hcin; [done|]. cbn [length].
  erewrite inputLoop_first_valid;
    [|cbn [cin]; exact Hex|done|done|done|done|cbn [b]; exact Hmove].
  unfold bind at 1, read; cbv beta iota. cbn [b].
  rewrite Hcheck. eexists. split; [reflexivity|]. cbn [b cin]. done.
Qed.

Lemma human_win_ends_round_witness :
  let bd := (MakeMoves [(MoveType.Player1, 0); (MoveType.Player2, 1);
                        (MoveType.Player1, 0); (MoveType.Player2, 1);
                        (MoveType.Player1, 0); (MoveType.Player2, 2)] new).2 in
  let w := {| b := bd; cin := String.list_ascii_of_string "1
5"; cout := [] |} in
  ∃ w', main_try 2 w = (inl GameOverException, w')
        ∧ MakeMove MoveType.Player1 0 (b w) = (inr tt, b w')
        ∧ cin w' = String.list_ascii_of_string "
5".
Proof.
  intros bd w.
  apply (human_win_ends_round 2 w (mkExtracted false false 1)
           (String.list_ascii_of_string "
5")); [reflexivity|reflexivity|reflexivity|cbn [value]; lia
        |cbn [value]; unfold Width; lia|reflexivity].
Defined.

(** *** The board through a whole game *)

Lemma board_ok_new : board_ok new.
Proof. split; [apply wf_new|apply gravity_new]. Qed.

(** [board_ok] looks at the grid only. *)
Lemma board_ok_grid bd bd' : board bd = board bd' → board_ok bd → board_ok bd'.
Proof.
  intros Hgrid [[Hlen Hrows] Hg]. split.
  - split; by rewrite <- Hgrid.
  - intros c r r' Hc Hlt Hr'. unfold GetSpace. rewrite <- Hgrid. by apply Hg.
Qed.

Lemma board_ok_MakeMove Move c bd :
  board_ok bd → board_ok (MakeMove Move c bd).2.
Proof.
  intros [Hwf Hg]. destruct (MakeMove Move c bd) as [[e|[]] bd'] eqn:Hmove; cbn [snd].
  - by apply MakeMove_throw_same in Hmove as ->.
  - split; [by eapply MakeMove_wf|].
    destruct (MakeMove_lands _ _ _ _ Hwf Hg Hmove) as [Hc [r Hl]].
    eapply lands_gravity; [apply Convert_not_Empty|done..].
Qed.

Section Keeps.
Context (I : Board.t → Prop).

Lemma keeps_ret {A} (a : A) : keeps_board I (ret a).
Proof. by intros w. Qed.

Lemma keeps_throw {A} e : keeps_board I (throw (A := A) e).
Proof. by intros w. Qed.

Lemma keeps_read {A} (f : World → A) : keeps_board I (read f).
Proof. by intros w. Qed.

Lemma keeps_say e : keeps_board I (say e).
Proof. by intros w. Qed.

Lemma keeps_PrintBoard : keeps_board I PrintBoard.
Proof. by intros w. Qed.

Lemma keeps_on_local {A} obj (m : M Board.t A) : keeps_board I (on_local obj m).
Proof. intros w Hw. unfold on_local. by destruct (m obj) as [[e|a] obj']. Qed.

Lemma keeps_on_b {A} (m : M Board.t A) :
  (∀ bd, I bd → I (m bd).2) → keeps_board I (on_b m).
Proof.
  intros Hm w Hw. unfold on_b. specialize (Hm (b w) Hw).
  by destruct (m (b w)).
Qed.

Lemma keeps_bind {A B} (m : M World A) (k : A → M World B) :
  keeps_board I m → (∀ a, keeps_board I (k a)) → keeps_board I (bind m k).
Proof.
  intros Hm Hk w Hw. unfold bind. specialize (Hm w Hw).
  destruct (m w) as [[e|a] w1]; cbn [snd] in *; [done|]. by apply Hk.
Qed.

Lemma keeps_try_catch {A} (m : M World A) (handler : exn → M World A) :
  keeps_board I m → (∀ e, keeps_board I (handler e)) →
  keeps_board I (try_catch m handler).
Proof.
  intros Hm Hh w Hw. unfold try_catch. specialize (Hm w Hw).
  destruct (m w) as [[e|a] w1]; cbn [snd] in *; [|done]. by apply Hh.
Qed.

Lemma keeps_GetRequestedColumn : keeps_board I GetRequestedColumn.
Proof.
  intros w Hw.
  destruct (GetRequestedColumn_cases w) as (Column & w1 & Hread & Hb & _).
  rewrite Hread; cbn [snd]. by rewrite Hb.
Qed.

End Keeps.

Ltac keeps_step :=
  first
    [ assumption
    | apply keeps_ret | apply keeps_throw | apply keeps_read
    | apply keeps_PrintBoard | apply keeps_say | apply keeps_on_local
    | apply keeps_GetRequestedColumn
    | apply keeps_on_b; first [ apply board_ok_MakeMove | by intros ? ]
    | apply keeps_bind; [|intros ?]
    | apply keeps_try_catch; [|intros ?]
    | match goal with
      | |- keeps_board _ (if ?c then _ else _) => destruct c
      | |- keeps_board _ (match ?x with _ => _ end) => destruct x
      end ].

Lemma keeps_inputLoop fuel currentPlayer :
  keeps_board board_ok (main_inputLoop fuel currentPlayer).
Proof.
  induction fuel as [|fuel IH]; cbn [main_inputLoop]; repeat keeps_step.
Qed.

Lemma keeps_isDraw cols : keeps_board board_ok (main_isDraw cols).
Proof. induction cols as [|c cols IH]; cbn [main_isDraw]; repeat keeps_step. Qed.

Lemma keeps_lookForWin cols : keeps_board board_ok (main_lookForWin cols).
Proof. induction cols as [|i cols IH]; cbn [main_lookForWin]; repeat keeps_step. Qed.

Lemma keeps_lookForBlock cols : keeps_board board_ok (main_lookForBlock cols).
Proof. induction cols as [|i cols IH]; cbn [main_lookForBlock]; repeat keeps_step. Qed.

Lemma keeps_probe fuel : ∀ autoMove, keeps_board board_ok (main_probe fuel autoMove).
Proof.
  induction fuel as [|fuel IH]; intros autoMove; cbn [main_probe]; [apply keeps_ret|].
  apply keeps_bind; [by apply keeps_on_b|intros can].
  destruct (negb can); [apply IH|apply keeps_ret].
Qed.

Lemma keeps_player2 rnd : keeps_board board_ok (main_player2 rnd).
Proof.
  unfold main_player2.
  apply keeps_bind; [apply keeps_PrintBoard|intros _].
  apply keeps_bind; [apply keeps_lookForWin|intros _].
  apply keeps_bind; [apply keeps_lookForBlock|intros bFoundBlock].
  apply keeps_bind.
  - destruct (negb bFoundBlock); [|apply keeps_ret].
    apply keeps_bind; [apply keeps_probe|intros found]. repeat keeps_step.
  - intros random. repeat keeps_step.
Qed.

Lemma keeps_try rnd : keeps_board board_ok (main_try rnd).
Proof.
  unfold main_try.
  apply keeps_bind; [apply keeps_PrintBoard|intros _].
  apply keeps_bind; [apply keeps_read|intros fuel].
  apply keeps_bind; [apply keeps_inputLoop|intros moved].
  destruct moved; [|apply keeps_ret].
  apply keeps_bind; [apply keeps_read|intros win].
  destruct win; [repeat keeps_step|].
  apply keeps_bind; [apply keeps_isDraw|intros isDraw].
  destruct isDraw; [repeat keeps_step|apply keeps_player2].
Qed.

Lemma keeps_iteration rnd : keeps_board board_ok (main_iteration rnd).
Proof.
  unfold main_iteration. apply keeps_try_catch; [apply keeps_try|intros e].
  destruct e; [|repeat keeps_step].
  apply keeps_bind; [|intros _; apply keeps_ret].
  intros w _. rewrite gameOver_unfold; cbn [snd b].
  by apply (board_ok_grid new), board_ok_new.
Qed.

(** X17: through any number of rounds, whatever is typed and whatever
    [rand()] returns, the board of [main] keeps [Height] rows of [Width]
    cells and its tokens stay stacked on row [Height - 1] without a gap,
    the handler's reset included. *)
Theorem game_board_ok input rnds :
  wf (b (main_loop rnds (main_start input)))
  ∧ gravity (b (main_loop rnds (main_start input))).
Proof.
  assert (Hloop : ∀ w, board_ok (b w) → board_ok (b (main_loop rnds w))).
  { induction rnds as [|rnd rnds IH]; intros w Hw; [done|].
    cbn [main_loop]. pose proof (keeps_iteration rnd w Hw) as Hstep.
    destruct (main_iteration rnd w) as [[e|[|]] w1]; cbn [snd] in Hstep;
      [done|by apply IH|done]. }
  apply Hloop. cbn [main_start b]. apply board_ok_new.
Qed.

(** *** Draws *)

Lemma length_filter_Forall {A} (P : A → Prop) `{!∀ a, Decision (P a)} (l : list A) :
  Forall P l → length (filter P l) = length l.
Proof.
  induction 1 as [|a l Ha _ IH]; [done|].
  rewrite filter_cons. destruct (decide (P a)); [|done]. cbn [length]. by rewrite IH.
Qed.

(** A board without playable column holds [Height * Width] tokens. *)
Lemma token_count_full bd :
  (∀ c, c < Width → CanMakeMove c bd = inr false) →
  token_count bd = Height * Width.
Proof.
  intros Hfull. unfold token_count. rewrite <- length_squares.
  apply length_filter_Forall, Forall_forall. intros [r c] Hin.
  apply elem_of_squares_inv in Hin as [Hr Hc]. cbn [fst snd].
  specialize (Hfull c Hc). rewrite CanMakeMove_unfold in Hfull.
  destruct (decide (Width ≤ c)); [lia|]. apply (inj inr) in Hfull.
  apply bool_decide_eq_false in Hfull.
  destruct (GetColumnHeight_loop_spec (board bd) c Height) as
    [(Hlt & _)|[_ Hall]]; [done|done|by apply Hall].
Qed.

Lemma MakeMove_throw_what Move c bd e bd' :
  MakeMove Move c bd = (inl e, bd') →
  e = std_exception "Column out of range" ∨ e = std_exception "Cannot make move".
Proof.
  rewrite MakeMove_unfold; cbv zeta.
  repeat case_decide; intros [= <- <-]; (by left) || (by right).
Qed.

Lemma no_draw_say e w :
  e ≠ EvText "It's a draw!" → no_draw w →
  no_draw {| b := b w; cin := cin w; cout := cout w ++ [e] |}.
Proof.
  intros He Hw. unfold no_draw in *; cbn [cout].
  rewrite elem_of_app, list_elem_of_singleton. intros [?|?]; [done|congruence].
Qed.

Lemma nd_ret {A} (a : A) : keeps_no_draw (ret a).
Proof. by intros w. Qed.

Lemma nd_throw {A} e : keeps_no_draw (throw (A := A) e).
Proof. by intros w. Qed.

Lemma nd_read {A} (f : World → A) : keeps_no_draw (read f).
Proof. by intros w. Qed.

Lemma nd_say e : e ≠ EvText "It's a draw!" → keeps_no_draw (say e).
Proof. intros He w Hw. by apply no_draw_say. Qed.

Lemma nd_PrintBoard : keeps_no_draw PrintBoard.
Proof. intros w Hw. by apply no_draw_say. Qed.

Lemma nd_on_b {A} (m : M Board.t A) : keeps_no_draw (on_b m).
Proof. intros w Hw. unfold on_b. by destruct (m (b w)). Qed.

Lemma nd_on_local {A} obj (m : M Board.t A) : keeps_no_draw (on_local obj m).
Proof. intros w Hw. unfold on_local. by destruct (m obj) as [[e|a] obj']. Qed.

Lemma nd_bind {A B} (m : M World A) (k : A → M World B) :
  keeps_no_draw m → (∀ a, keeps_no_draw (k a)) → keeps_no_draw (bind m k).
Proof.
  intros Hm Hk w Hw. unfold bind. specialize (Hm w Hw).
  destruct (m w) as [[e|a] w1]; cbn [snd] in *; [done|]. by apply Hk.
Qed.

Ltac nd_step :=
  first
    [ assumption
    | apply nd_ret | apply nd_throw | apply nd_read
    | apply nd_PrintBoard | apply nd_on_b | apply nd_on_local
    | apply nd_say; discriminate
    | apply nd_bind; [|intros ?]
    | match goal with
      | |- keeps_no_draw (if ?c then _ else _) => destruct c
      | |- keeps_no_draw (match ?x with _ => _ end) => destruct x
      end ].

Lemma nd_inputLoop fuel currentPlayer :
  keeps_no_draw (main_inputLoop fuel currentPlayer).
Proof.
  induction fuel as [|fuel IH]; intros w Hw; [done|].
  cbn [main_inputLoop]. unfold bind at 1.
  destruct (GetRequestedColumn_cases w) as (Column & w1 & Hread & _ & Hout & _).
  rewrite Hread.
  assert (Hw1 : no_draw w1).
  { unfold no_draw in *.
    destruct Hout as [-> | ->]; rewrite elem_of_app; intros [?|Hin]; try done;
      repeat (apply elem_of_cons in Hin as [Hin|Hin]; [done|]);
      by apply elem_of_nil in Hin. }
  destruct Column as [c|]; [|by apply IH].
  unfold try_catch, bind, on_b, ret.
  destruct (MakeMove currentPlayer c (b w1)) as [[e|[]] bd'] eqn:Hmove; [|done].
  unfold say; cbn [b cin cout]. apply IH.
  apply (no_draw_say _ {| b := bd'; cin := cin w1; cout := cout w1 |}); [|done].
  by destruct (MakeMove_throw_what _ _ _ _ _ Hmove) as [-> | ->].
Qed.

Lemma nd_lookForWin cols : keeps_no_draw (main_lookForWin cols).
Proof. induction cols as [|i cols IH]; cbn [main_lookForWin]; repeat nd_step. Qed.

Lemma nd_lookForBlock cols : keeps_no_draw (main_lookForBlock cols).
Proof. induction cols as [|i cols IH]; cbn [main_lookForBlock]; repeat nd_step. Qed.

Lemma nd_probe fuel : ∀ autoMove, keeps_no_draw (main_probe fuel autoMove).
Proof.
  induction fuel as [|fuel IH]; intros autoMove; cbn [main_probe]; [apply nd_ret|].
  apply nd_bind; [apply nd_on_b|intros can].
  destruct (negb can); [apply IH|apply nd_ret].
Qed.

Lemma nd_player2 rnd : keeps_no_draw (main_player2 rnd).
Proof.
  unfold main_player2.
  apply nd_bind; [apply nd_PrintBoard|intros _].
  apply nd_bind; [apply nd_lookForWin|intros _].
  apply nd_bind; [apply nd_lookForBlock|intros bFoundBlock].
  apply nd_bind.
  - destruct (negb bFoundBlock); [|apply nd_ret].
    apply nd_bind; [apply nd_probe|intros found]. repeat nd_step.
  - intros random. repeat nd_step.
Qed.

(** The [try] block, started with an even number of tokens on a board in
    order: the draw branch is not taken, because the board holds an odd
    number of tokens when the test is made. *)
Lemma main_try_no_draw rnd w r w' :
  round_inv w → main_try rnd w = (r, w') →
  no_draw w'
  ∧ ((r = inr Continue ∨ r = inr Spin) ∧ Nat.even (token_count (b w')) = true
     ∨ r = inl GameOverException).
Proof.
  intros (Hok & Heven & Hnd) Htry.
  unfold main_try in Htry. unfold bind at 1, PrintBoard, say in Htry.
  unfold bind at 1, read in Htry. unfold bind at 1 in Htry.
  pose proof (no_draw_say (EvPrintBoard (render (b w))) w ltac:(discriminate) Hnd) as Hnd1.
  match type of Htry with
  | context [main_inputLoop ?f ?p ?w1] =>
      pose proof (nd_inputLoop f p w1 Hnd1) as Hnd2;
      destruct (main_inputLoop f p w1) as [r1 w2] eqn:Hloop
  end.
  cbn [snd] in Hnd2.
  destruct (inputLoop_cases _ _ _ _ _ Hloop) as [[-> (c & Hc & Hmove)]|[-> Hsame]];
    cbn [b] in *.
  2: { injection Htry as <- <-. split; [done|]. left. rewrite Hsame. by split; [right|]. }
  destruct Hok as [Hwf Hg].
  pose proof (MakeMove_token_count _ _ _ _ Hwf Hmove) as Hcount.
  unfold bind at 1, read in Htry.
  destruct (CheckWin _ (b w2)).
  { unfold bind, PrintBoard, say, throw in Htry. injection Htry as <- <-.
    split; [|by right].
    apply (no_draw_say _ {| b := b w2; cin := cin w2; cout := _ |}); [discriminate|].
    by apply no_draw_say. }
  unfold bind at 1 in Htry.
  destruct (isDraw_cases (range 0 Width) w2) as (d & Hdraw & Hiff);
    [apply Forall_range; intros; lia|].
  rewrite Hdraw in Htry.
  destruct (playable_or_full (b w2)) as [Hfull|(c' & Hc' & Hplay)].
  { exfalso. apply token_count_full in Hfull. rewrite Hcount in Hfull.
    unfold Height, Width in Hfull.
    assert (Hn : token_count (b w) = 41) by lia. by rewrite Hn in Heven. }
  destruct d.
  { exfalso. pose proof (proj1 Hiff eq_refl) as Hall.
    pose proof (proj1 (Forall_forall _ _) Hall c') as Hno.
    rewrite Hno in Hplay; [done|]. apply list_elem_of_In, in_seq. lia. }
  destruct (player2_cases rnd w2 c' Hc' Hplay)
    as (i & r2 & w3 & Hrun & _ & Hmove2 & _ & Hr2).
  rewrite Hrun in Htry. injection Htry as <- <-.
  pose proof (nd_player2 rnd w2 Hnd2) as Hnd3. rewrite Hrun in Hnd3; cbn [snd] in Hnd3.
  split; [done|].
  destruct Hr2 as [[-> _]|[-> _]]; [left|by right].
  split; [by left|].
  rewrite (MakeMove_token_count _ _ _ _ (MakeMove_wf _ _ _ _ _ Hwf Hmove) Hmove2), Hcount.
  by rewrite Nat.even_succ_succ.
Qed.

Lemma round_inv_iteration rnd w : round_inv w → round_inv (main_iteration rnd w).2.
Proof.
  intros Hinv.
  pose proof (keeps_iteration rnd w (proj1 Hinv)) as Hok.
  split; [done|]. clear Hok.
  unfold main_iteration, try_catch.
  destruct (main_try rnd w) as [r w'] eqn:Htry.
  destruct (main_try_no_draw rnd w r w' Hinv Htry) as [Hnd [[[->| ->] Heven]| ->]];
    [done..|].
  unfold bind. rewrite gameOver_unfold. cbn [snd b]. split; [reflexivity|].
  exact Hnd.
Qed.

(** X18: no game ever reports a draw.  Player1 moves first and the only
    test for a draw comes right after a move of Player1, when the board
    holds an odd number of tokens and so cannot be full: whatever is typed
    and whatever [rand()] returns, "It's a draw!" is never written (a
    board filled by Player2's move leaves the next round waiting for
    input). *)
Theorem never_a_draw input rnds :
  EvText "It's a draw!" ∉ cout (main_loop rnds (main_start input)).
Proof.
  assert (Hloop : ∀ w, round_inv w → round_inv (main_loop rnds w)).
  { induction rnds as [|rnd rnds IH]; intros w Hw; [done|].
    cbn [main_loop]. pose proof (round_inv_iteration rnd w Hw) as Hstep.
    destruct (main_iteration rnd w) as [[e|[|]] w1]; cbn [snd] in Hstep;
      [done|by apply IH|done]. }
  apply Hloop. split; [apply board_ok_new|]. split; [reflexivity|].
  unfold no_draw, main_start; cbn [cout]. apply not_elem_of_nil.
Qed.


End Rounds.
